(** * Majorizer: key detection and minor-to-major transposition of MIDI files

    A shallow embedding of [src/Majorizer.py]: the Krumhansl-Schmuckler key
    finder [analyseKey] and the two transposers [convertRelative] and
    [convertParallel], followed by the properties stated for them.

    Modelling conventions.
    - Python [int] is [Z]; [%] with a positive divisor is [Z.modulo].
    - A [mido] message is a tagged value: note-on, note-off, or any other
      message kind with its payload.  Every message carries its delta [time].
    - The dictionaries [active] and [cpitchc] are [gmap Z Z]; reading the
      [defaultdict(int)] at an absent key gives [0].
    - The scoring loops are embedded twice.  [analyseKey_in] takes the
      arithmetic of the scoring as a parameter: how an integer quotient, a
      decimal literal, [np.dot] and [>] are evaluated.  [analyseKey] is its
      instance in exact rationals [Q]; [binary64] is the instance in IEEE
      doubles with the products of [np.dot] added from left to right.
      Statements about which key wins are made over [analyseKey_in]. *)

From Stdlib Require Import ZArith QArith Lqa Floats.
From stdpp Require Import gmap strings list fin_maps.

Local Open Scope Z_scope.

(** ** Messages, tracks, files *)

Inductive Message : Type :=
| NoteOn (channel note velocity time : Z)
| NoteOff (channel note velocity time : Z)
| Other (kind : string) (data : list Z) (time : Z).

Definition msg_time (msg : Message) : Z :=
  match msg with
  | NoteOn _ _ _ t | NoteOff _ _ _ t | Other _ _ t => t
  end.

Definition is_note (msg : Message) : bool :=
  match msg with
  | NoteOn _ _ _ _ | NoteOff _ _ _ _ => true
  | Other _ _ _ => false
  end.

Definition msg_note (msg : Message) : option Z :=
  match msg with
  | NoteOn _ n _ _ | NoteOff _ n _ _ => Some n
  | Other _ _ _ => None
  end.

Record MidiFile : Type := mkMidiFile {
  type : Z;
  ticks_per_beat : Z;
  tracks : list (list Message)
}.

(** ** Module-level constants *)

Definition majorProfile : list Q :=
  [6.35; 2.23; 3.48; 2.33; 4.38; 4.09; 2.52; 5.19; 2.39; 3.66; 2.29; 2.88]%Q.
Definition minorProfile : list Q :=
  [6.33; 2.68; 3.52; 5.38; 2.60; 3.53; 2.54; 4.75; 3.98; 2.69; 3.34; 3.17]%Q.

(** ** [analyseKey]: duration accumulation (source lines 36-51) *)

(** The two variables that live across tracks. *)
Record Tally : Type := mkTally {
  cpitchc : gmap Z Z;
  totalDuration : Z
}.

(** The two variables that are reset at the start of every track. *)
Record Cursor : Type := mkCursor {
  active : gmap Z Z;
  currentTime : Z
}.

Definition tally0 : Tally := mkTally ∅ 0.
Definition cursor0 : Cursor := mkCursor ∅ 0.

(** Body of the [elif] branch: [note] ends at clock [now]. *)
Definition note_end (g : Tally) (act : gmap Z Z) (note now : Z) : Tally * Cursor :=
  match act !! note with
  | Some onset =>
      let duration := now - onset in
      let pitchClass := note mod 12 in
      (mkTally (<[pitchClass := default 0 (cpitchc g !! pitchClass) + duration]> (cpitchc g))
               (totalDuration g + duration),
       mkCursor (delete note act) now)
  | None => (g, mkCursor act now)
  end.

(** Body of [for msg in track]. *)
Definition on_message (s : Tally * Cursor) (msg : Message) : Tally * Cursor :=
  let '(g, c) := s in
  let now := currentTime c + msg_time msg in
  match msg with
  | NoteOn _ note velocity _ =>
      if 0 <? velocity then (g, mkCursor (<[note := now]> (active c)) now)
      else if velocity =? 0 then note_end g (active c) note now
      else (g, mkCursor (active c) now)
  | NoteOff _ note _ _ => note_end g (active c) note now
  | Other _ _ _ => (g, mkCursor (active c) now)
  end.

(** The state of the inner loop after the events of [track], entered with [g]. *)
Definition run_track (g : Tally) (track : list Message) : Tally * Cursor :=
  fold_left on_message track (g, cursor0).

(** Body of [for track in mid.tracks]: [active] and [currentTime] are dropped. *)
Definition scan_track (g : Tally) (track : list Message) : Tally :=
  fst (run_track g track).

Definition accumulate (mid : MidiFile) : Tally :=
  fold_left scan_track (tracks mid) tally0.

(** ** [analyseKey]: scoring (source lines 53-63) *)

Definition Qgtb (x y : Q) : bool := negb (Qle_bool x y).

Definition pitchClassHistogram (g : Tally) : list Q :=
  map (fun i : Z => Qdiv (inject_Z (default 0 (cpitchc g !! i)))
                         (inject_Z (totalDuration g)))
      (seqZ 0 12).

(** [np.roll]: the element at index [j] moves to index [(j + shift) mod n]. *)
Definition roll {A} (a : list A) (shift : Z) : list A :=
  let n := length a in
  let k := (n - Z.to_nat (shift mod Z.of_nat n))%nat in
  drop k a ++ take k a.

(** [np.dot] on two vectors. *)
Definition dot (a b : list Q) : Q :=
  foldr Qplus 0%Q (zip_with Qmult a b).

Definition profiles : list (string * list Q) :=
  [("major", majorProfile); ("minor", minorProfile)].

(** Body of the inner scoring loop; the state is [(bestScore, detectedKey)]. *)
Definition consider (hist : list Q) (i : Z)
    (st : Q * (Z * string)) (mp : string * list Q) : Q * (Z * string) :=
  let '(mode, profile) := mp in
  let keyProfile := roll profile i in
  let correlation := dot hist keyProfile in
  if Qgtb correlation (fst st) then (correlation, (i, mode)) else st.

Definition search (hist : list Q) : Q * (Z * string) :=
  fold_left (fun st i => fold_left (consider hist i) profiles st)
            (seqZ 0 12) ((-1)%Q, (0, "minor")).

Definition analyseKey (mid : MidiFile) : Z * string :=
  let g := accumulate mid in
  if totalDuration g =? 0 then (0, "minor")
  else snd (search (pitchClassHistogram g)).

(** ** [convertRelative] (source lines 65-75) *)

Definition relative_msg (msg : Message) : Message :=
  match msg with
  | NoteOn c note v t => NoteOn c (Z.min 127 (note + 3)) v t
  | NoteOff c note v t => NoteOff c (Z.min 127 (note + 3)) v t
  | Other _ _ _ => msg
  end.

Definition convertRelative (mid : MidiFile) : MidiFile :=
  let newTracks :=
    fold_left (fun newTracks track =>
                 let newTrack :=
                   fold_left (fun newTrack msg => newTrack ++ [relative_msg msg])
                             track [] in
                 newTracks ++ [newTrack])
              (tracks mid) [] in
  mkMidiFile (type mid) (ticks_per_beat mid) newTracks.

(** ** [convertParallel] (source lines 77-97) *)

Definition transposed (tonicpc : Z) : gset Z :=
  let m3 := (tonicpc + 3) mod 12 in
  let m6 := (tonicpc + 8) mod 12 in
  let m7 := (tonicpc + 10) mod 12 in
  {[ m3; m6; m7 ]}.

Definition with_note (msg : Message) (newNote : Z) : Message :=
  match msg with
  | NoteOn c _ v t => NoteOn c newNote v t
  | NoteOff c _ v t => NoteOff c newNote v t
  | Other _ _ _ => msg
  end.

Definition parallel_msg (tr : gset Z) (msg : Message) : Message :=
  match msg_note msg with
  | Some note =>
      let pitchClass := note mod 12 in
      if bool_decide (pitchClass ∈ tr) then
        let newNote := Z.min 127 (note + 1) in
        with_note msg newNote
      else msg
  | None => msg
  end.

Definition convertParallel (mid : MidiFile) (tonicpc : Z) : MidiFile :=
  let tr := transposed tonicpc in
  let newTracks :=
    fold_left (fun newTracks track =>
                 let newTrack :=
                   fold_left (fun newTrack msg => newTrack ++ [parallel_msg tr msg])
                             track [] in
                 newTracks ++ [newTrack])
              (tracks mid) [] in
  mkMidiFile (type mid) (ticks_per_beat mid) newTracks.

(** ** Sample inputs *)

Definition one_note (pitch len : Z) : list Message :=
  [NoteOn 0 pitch 80 0; NoteOff 0 pitch 0 len].

Definition a_minor_doc : MidiFile :=
  mkMidiFile 1 480
    [ one_note 69 960 ++ one_note 72 480 ++ one_note 76 480;
      one_note 57 1920 ].

(** The clamp boundary: G9 (pitch 127, class 7) in E minor, whose minor third is G. *)
Definition clamp_doc : MidiFile :=
  mkMidiFile 0 96 [[NoteOn 0 127 64 0; NoteOff 0 127 0 96]].

Definition mixed_doc : MidiFile :=
  mkMidiFile 1 480
    [ [Other "set_tempo" [500000] 0; NoteOn 0 60 80 0; NoteOn 0 63 80 10;
       NoteOff 0 60 0 470; NoteOff 0 63 0 10; NoteOn 1 126 90 0; NoteOff 1 126 0 5];
      [NoteOn 2 68 70 3; Other "control_change" [7; 100] 1; NoteOn 2 68 0 4] ].

(** ** Vocabulary of the stated properties *)

(** The event at position [j] of track [i]. *)
Definition event_at (mid : MidiFile) (i j : nat) : option Message :=
  tracks mid !! i ≫= (λ track, track !! j).

(** [msg'] differs from [msg] at most in the pitch of a note event. *)
Definition same_except_pitch (msg msg' : Message) : Prop :=
  match msg, msg' with
  | NoteOn c _ v t, NoteOn c' _ v' t' => c = c' ∧ v = v' ∧ t = t'
  | NoteOff c _ v t, NoteOff c' _ v' t' => c = c' ∧ v = v' ∧ t = t'
  | Other k d t, Other k' d' t' => k = k' ∧ d = d' ∧ t = t'
  | _, _ => False
  end.

(** [out] has the file-level fields, the track and event counts and the
    delta times of [mid], and differs from it at most in note pitches. *)
Definition same_frame (mid out : MidiFile) : Prop :=
  type out = type mid ∧
  ticks_per_beat out = ticks_per_beat mid ∧
  length (tracks out) = length (tracks mid) ∧
  map length (tracks out) = map length (tracks mid) ∧
  map (map msg_time) (tracks out) = map (map msg_time) (tracks mid) ∧
  Forall2 (Forall2 same_except_pitch) (tracks mid) (tracks out).

(** The pitch classes a parallel-major conversion raises: the minor third,
    sixth and seventh above the tonic. *)
Definition raised_class (tonicpc pitch : Z) : Prop :=
  pitch mod 12 = (tonicpc + 3) mod 12 ∨
  pitch mod 12 = (tonicpc + 8) mod 12 ∨
  pitch mod 12 = (tonicpc + 10) mod 12.

(** A message that ends a note: a note-off, or a note-on of velocity 0. *)
Definition is_off (msg : Message) : bool :=
  match msg with
  | NoteOff _ _ _ _ => true
  | NoteOn _ _ velocity _ => velocity =? 0
  | Other _ _ _ => false
  end.

Definition ends_pitch (pitch : Z) (msg : Message) : Prop :=
  is_off msg = true ∧ msg_note msg = Some pitch.

(** Ticks from the start of a track to its last event. *)
Definition elapsed (track : list Message) : Z :=
  foldr (λ msg ticks, msg_time msg + ticks) 0 track.

(** The accumulated durations of the twelve pitch classes, added up. *)
Definition sum_classes (m : gmap Z Z) (classes : list Z) : Z :=
  foldr (λ i acc, default 0 (m !! i) + acc) 0 classes.

Definition Qsum (l : list Q) : Q := foldr Qplus 0%Q l.

(** The keys in the order the scoring loops visit them: tonics 0 to 11,
    and for each tonic major before minor. *)
Definition candidates : list (Z * string) :=
  i ← seqZ 0 12; [(i, "major"); (i, "minor")].

Definition profile_of (mode : string) : list Q :=
  if String.eqb mode "major" then majorProfile else minorProfile.

(** The correlation of a histogram with the profile of a key. *)
Definition score (hist : list Q) (key : Z * string) : Q :=
  dot hist (roll (profile_of key.2) key.1).

(** One iteration of the scoring loops, seen over [candidates]. *)
Definition pick (hist : list Q) (st : Q * (Z * string)) (key : Z * string)
    : Q * (Z * string) :=
  if Qgtb (score hist key) st.1 then (score hist key, key) else st.

(** Moving every note by [k] semitones. *)
Definition transpose_msg (k : Z) (msg : Message) : Message :=
  match msg with
  | NoteOn c note v t => NoteOn c (note + k) v t
  | NoteOff c note v t => NoteOff c (note + k) v t
  | Other _ _ _ => msg
  end.

Definition transpose_doc (k : Z) (mid : MidiFile) : MidiFile :=
  mkMidiFile (type mid) (ticks_per_beat mid)
             (map (map (transpose_msg k)) (tracks mid)).

Definition pitches_at_most (bound : Z) (mid : MidiFile) : Prop :=
  Forall (Forall (λ msg, ∀ n, msg_note msg = Some n → n ≤ bound)) (tracks mid).

(** Two states of the walk that agree on everything but the onset stored
    for [pitch]. *)
Definition agree_but (pitch : Z) (s s' : Tally * Cursor) : Prop :=
  s.1 = s'.1 ∧ currentTime s.2 = currentTime s'.2 ∧
  ∀ k, k ≠ pitch → active s.2 !! k = active s'.2 !! k.

(** [s'] is [s] with every stored onset moved [k] semitones up. *)
Definition shifted (k : Z) (s s' : Tally * Cursor) : Prop :=
  s.1 = s'.1 ∧ currentTime s.2 = currentTime s'.2 ∧
  ∀ p, active s'.2 !! (p + k) = active s.2 !! p.

(** ** Vocabulary of the further properties *)

(** Every note pitch of the file is a MIDI data byte. *)
Definition pitches_in_range (mid : MidiFile) : Prop :=
  Forall (Forall (λ msg, ∀ n, msg_note msg = Some n → 0 ≤ n ≤ 127)) (tracks mid).

(** Raising every note by [k] semitones, stopping at 127. *)
Definition raise_msg (k : Z) (msg : Message) : Message :=
  match msg with
  | NoteOn c note v t => NoteOn c (Z.min 127 (note + k)) v t
  | NoteOff c note v t => NoteOff c (Z.min 127 (note + k)) v t
  | Other _ _ _ => msg
  end.

Definition raise_doc (k : Z) (mid : MidiFile) : MidiFile :=
  mkMidiFile (type mid) (ticks_per_beat mid)
             (map (map (raise_msg k)) (tracks mid)).

(** The accumulated duration of pitch class [i], as the histogram reads it. *)
Definition class_duration (g : Tally) (i : Z) : Z := default 0 (cpitchc g !! i).

(** No delta time of the file is negative. *)
Definition nonneg_times (mid : MidiFile) : Prop :=
  Forall (Forall (λ msg, 0 ≤ msg_time msg)) (tracks mid).

(** What the walk keeps true when delta times are not negative: durations
    are not negative and no stored onset lies after the clock. *)
Definition forward (s : Tally * Cursor) : Prop :=
  0 ≤ totalDuration s.1 ∧
  (∀ i, 0 ≤ class_duration s.1 i) ∧
  (∀ p onset, active s.2 !! p = Some onset → onset ≤ currentTime s.2).

(** The keys of [cpitchc] are pitch classes. *)
Definition class_keys (g : Tally) : Prop :=
  ∀ i, is_Some (cpitchc g !! i) → 0 ≤ i < 12.

(** What the walk reads off a message besides its delta time. *)
Inductive Reading : Type :=
| Onset (note : Z)
| Offset (note : Z)
| Silent.

Definition reading (msg : Message) : Reading :=
  match msg with
  | NoteOn _ note velocity _ =>
      if 0 <? velocity then Onset note
      else if velocity =? 0 then Offset note else Silent
  | NoteOff _ note _ _ => Offset note
  | Other _ _ _ => Silent
  end.

(** The same message [dt] ticks later. *)
Definition delay (dt : Z) (msg : Message) : Message :=
  match msg with
  | NoteOn c n v t => NoteOn c n v (dt + t)
  | NoteOff c n v t => NoteOff c n v (dt + t)
  | Other k d t => Other k d (dt + t)
  end.

(** Two tallies the scoring cannot tell apart. *)
Definition same_durations (g g' : Tally) : Prop :=
  totalDuration g = totalDuration g' ∧
  ∀ i, class_duration g i = class_duration g' i.

(** [s] is the walk entered with [g] where [s0] is the walk of the same
    events entered with empty accumulators. *)
Definition offset_by (g : Tally) (s s0 : Tally * Cursor) : Prop :=
  s.2 = s0.2 ∧
  totalDuration s.1 = totalDuration g + totalDuration s0.1 ∧
  ∀ i, class_duration s.1 i = class_duration g i + class_duration s0.1 i.

(** The same events with every delta time multiplied by [k]. *)
Definition scale_msg (k : Z) (msg : Message) : Message :=
  match msg with
  | NoteOn c n v t => NoteOn c n v (k * t)
  | NoteOff c n v t => NoteOff c n v (k * t)
  | Other kind d t => Other kind d (k * t)
  end.

Definition scale_doc (k : Z) (mid : MidiFile) : MidiFile :=
  mkMidiFile (type mid) (ticks_per_beat mid)
             (map (map (scale_msg k)) (tracks mid)).

(** [s'] is [s] with every time and duration multiplied by [k]. *)
Definition scaled (k : Z) (s s' : Tally * Cursor) : Prop :=
  totalDuration s'.1 = k * totalDuration s.1 ∧
  (∀ i, class_duration s'.1 i = k * class_duration s.1 i) ∧
  currentTime s'.2 = k * currentTime s.2 ∧
  active s'.2 = Z.mul k <$> active s.2.

(** [key] scores strictly above every other key. *)
Definition strict_best (hist : list Q) (key : Z * string) : Prop :=
  key ∈ candidates ∧
  ∀ key', key' ∈ candidates → key' ≠ key → (score hist key' < score hist key)%Q.

(** [g'] holds in class [(i + k) mod 12] what [g] holds in class [i]. *)
Definition rotated (k : Z) (g g' : Tally) : Prop :=
  totalDuration g' = totalDuration g ∧
  ∀ i, 0 ≤ i < 12 → class_duration g' ((i + k) mod 12) = class_duration g i.

(** [s'] is the walk of the events of [s] moved [k] semitones up. *)
Definition moved (k : Z) (s s' : Tally * Cursor) : Prop :=
  rotated k s.1 s'.1 ∧
  currentTime s'.2 = currentTime s.2 ∧
  ∀ p, active s'.2 !! (p + k) = active s.2 !! p.

(** Every note of the file is in pitch class [c]. *)
Definition single_class (c : Z) (mid : MidiFile) : Prop :=
  Forall (Forall (λ msg, ∀ n, msg_note msg = Some n → n mod 12 = c)) (tracks mid).

(** The histogram of a file that sounds pitch class 0 only. *)
Definition unit_histogram : list Q := 1%Q :: replicate 11 0%Q.

(** ** [main] (source lines 99-148) *)

Definition notes : list string :=
  ["C"; "C#"; "D"; "D#"; "E"; "F"; "F#"; "G"; "G#"; "A"; "A#"; "B"].

(** Python's [l[i]]: negative indices count from the end, and an index out
    of range raises, which is [None] here. *)
Definition py_index {A} (l : list A) (i : Z) : option A :=
  if 0 <=? i then l !! Z.to_nat i
  else if - Z.of_nat (length l) <=? i then l !! Z.to_nat (Z.of_nat (length l) + i)
  else None.

(** The [while choice not in ["1", "2"]] loop.  [answers] are the successive
    values of [input(...).strip()]; when they run out before a valid choice,
    [input] raises, which is [None] here. *)
Fixpoint ask (answers : list string) : option string :=
  match answers with
  | [] => None
  | choice :: answers =>
      if bool_decide (choice ∈ ["1"; "2"]) then Some choice else ask answers
  end.

(** How a run of [main] ends, console output apart. *)
Inductive Outcome : Type :=
| Rejected                               (* line 100: not a .mid/.midi path *)
| Unreadable                             (* line 107: the loader raised *)
| NotMinor (tonicName mode : string)     (* line 116: nothing is converted *)
| NothingToSave                          (* line 139: [midMajor] is [None] *)
| Saving (midMajor : MidiFile) (tonicName newKeyName : string).
                                         (* line 141: [midMajor.save] is called *)

(** [main] from line 111 on, with the file already loaded.  [None] is an
    exception that leaves [main]. *)
Definition main_loaded (midOriginal : MidiFile) (answers : list string)
    : option Outcome :=
  let '(tonicpc, mode) := analyseKey midOriginal in
  tonicName ← py_index notes tonicpc;
  if negb (String.eqb mode "minor") then Some (NotMinor tonicName mode)
  else
    relativeName ← py_index notes ((tonicpc + 3) mod 12);
    choice ← ask answers;
    if String.eqb choice "1" then
      Some (Saving (convertRelative midOriginal) tonicName
                   (String.append relativeName " Major"))
    else if String.eqb choice "2" then
      Some (Saving (convertParallel midOriginal tonicpc) tonicName
                   (String.append tonicName " Major"))
    else Some NothingToSave.

(** [main].  [valid_path] is the outcome of the test on [finput] at line 100
    and [loaded] what [mido.MidiFile(finput)] gives, [None] when it raises. *)
Definition main (valid_path : bool) (loaded : option MidiFile)
    (answers : list string) : option Outcome :=
  if negb valid_path then Some Rejected
  else match loaded with
       | None => Some Unreadable
       | Some midOriginal => main_loaded midOriginal answers
       end.

(** A track of separate notes: each [(gap, pitch, len)] is a note struck
    [gap] ticks after the previous event and released [len] ticks later. *)
Definition melody (ns : list (Z * Z * Z)) : list Message :=
  ns ≫= λ '(gap, pitch, len), [NoteOn 0 pitch 64 gap; NoteOff 0 pitch 64 len].

(** The lengths of the notes of a melody that fall in pitch class [c]. *)
Definition melody_duration (c : Z) (ns : list (Z * Z * Z)) : Z :=
  foldr (λ '(_, pitch, len) acc, (if decide (pitch mod 12 = c) then len else 0) + acc)
        0 ns.

Definition melody_length (ns : list (Z * Z * Z)) : Z :=
  foldr (λ '(_, _, len) acc, len + acc) 0 ns.

(** ** The scoring loops over any arithmetic (source lines 53-63) *)

(** What the scoring needs from its numbers: the quotient of two integers
    ([cpitchc[i] / totalDuration]), the reading of a decimal literal and of
    the integer [-1], [np.dot], and the comparison [>]. *)
Record Arithmetic : Type := mkArithmetic {
  num : Type;
  true_div : Z → Z → num;
  literal : Q → num;
  np_dot : list num → list num → num;
  greater : num → num → bool
}.

Definition majorProfile_in (A : Arithmetic) : list (num A) :=
  map (literal A) majorProfile.
Definition minorProfile_in (A : Arithmetic) : list (num A) :=
  map (literal A) minorProfile.

Definition histogram_in (A : Arithmetic) (g : Tally) : list (num A) :=
  map (fun i : Z => true_div A (default 0 (cpitchc g !! i)) (totalDuration g))
      (seqZ 0 12).

Definition profiles_in (A : Arithmetic) : list (string * list (num A)) :=
  [("major", majorProfile_in A); ("minor", minorProfile_in A)].

Definition consider_in (A : Arithmetic) (hist : list (num A)) (i : Z)
    (st : num A * (Z * string)) (mp : string * list (num A))
    : num A * (Z * string) :=
  let '(mode, profile) := mp in
  let keyProfile := roll profile i in
  let correlation := np_dot A hist keyProfile in
  if greater A correlation (fst st) then (correlation, (i, mode)) else st.

Definition search_in (A : Arithmetic) (hist : list (num A))
    : num A * (Z * string) :=
  fold_left (fun st i => fold_left (consider_in A hist i) (profiles_in A) st)
            (seqZ 0 12) (literal A (-1)%Q, (0, "minor")).

Definition analyseKey_in (A : Arithmetic) (mid : MidiFile) : Z * string :=
  let g := accumulate mid in
  if totalDuration g =? 0 then (0, "minor")
  else snd (search_in A (histogram_in A g)).

(** Exact rationals: the arithmetic of [analyseKey]. *)
Definition exact : Arithmetic :=
  mkArithmetic Q (fun a b => Qdiv (inject_Z a) (inject_Z b)) (fun q => q) dot Qgtb.

(** IEEE doubles.  An integer below 2^53 in size converts exactly, so the
    quotient of two such integers and the reading of a literal are correctly
    rounded; the products of [np.dot] are added from left to right. *)
Definition Z2f (z : Z) : float :=
  if z <? 0 then PrimFloat.opp (PrimFloat.of_uint63 (Uint63.of_Z (- z)))
  else PrimFloat.of_uint63 (Uint63.of_Z z).

Definition binary64 : Arithmetic :=
  mkArithmetic float
    (fun a b => PrimFloat.div (Z2f a) (Z2f b))
    (fun q => PrimFloat.div (Z2f (Qnum q)) (Z2f (Z.pos (Qden q))))
    (fun a b => fold_left PrimFloat.add (zip_with PrimFloat.mul a b) 0%float)
    (fun x y => PrimFloat.ltb y x).

(** The score of a key, and one iteration of the loops seen over
    [candidates], in the arithmetic [A]. *)
Definition profile_in (A : Arithmetic) (mode : string) : list (num A) :=
  if String.eqb mode "major" then majorProfile_in A else minorProfile_in A.

Definition score_in (A : Arithmetic) (hist : list (num A)) (key : Z * string)
    : num A :=
  np_dot A hist (roll (profile_in A key.2) key.1).

Definition pick_in (A : Arithmetic) (hist : list (num A))
    (st : num A * (Z * string)) (key : Z * string) : num A * (Z * string) :=
  if greater A (score_in A hist key) st.1 then (score_in A hist key, key) else st.

(** [gt] orders the values of [S]: nothing is above itself, above is
    transitive, and a value above [y] is above whatever is not above [y]. *)
Definition ordered_on {X} (gt : X → X → bool) (S : list X) : Prop :=
  ∀ x y z, x ∈ S → y ∈ S → z ∈ S →
    gt x x = false ∧
    (gt x y = true → gt y z = true → gt x z = true) ∧
    (gt x y = true → gt z y = false → gt x z = true).

Definition ordered_check {X} (gt : X → X → bool) (S : list X) : bool :=
  forallb (λ x,
    negb (gt x x) &&
    forallb (λ y,
      forallb (λ z,
        implb (gt x y && gt y z) (gt x z) &&
        implb (gt x y && negb (gt z y)) (gt x z)) S) S) S.

(** Two notes a tritone apart, equally long. *)
Definition tritone_doc : MidiFile :=
  mkMidiFile 1 480 [one_note 60 480 ++ one_note 66 480].

(** ** Proof steps for the scoring bound *)

(** Rewrites the score of a concrete key in [H] as a sum of products. *)
Ltac expose_score H :=
  match type of H with
  | context [score ?h (?t, ?m)] =>
      let r := eval vm_compute in (roll (profile_of m) t) in
      change (score h (t, m)) with (dot h r) in H;
      cbv [dot zip_with foldr] in H
  end.

(** Either the major key on tonic [t] scores above -1, or it does not. *)
Ltac try_major hist t idx :=
  destruct (Qlt_le_dec (-1) (score hist (t, "major"))) as [?H|?H];
    [exists (t, "major"); split;
       [apply (list_elem_of_lookup_2 _ idx); reflexivity|assumption]|].

(** * Properties of the transposers *)

Section Loops.
Context {A B : Type} (f : A → B).

(** A loop that appends [f x] for each [x] builds [map f]. *)
Lemma append_loop_map (l : list A) (acc : list B) :
  fold_left (λ acc x, acc ++ [f x]) l acc = acc ++ map f l.
Proof.
  revert acc. induction l as [|x l IH]; intros acc; simpl.
  - by rewrite app_nil_r.
  - rewrite IH. by rewrite <- app_assoc.
Qed.
End Loops.

Lemma convertRelative_tracks mid :
  tracks (convertRelative mid) = map (map relative_msg) (tracks mid).
Proof.
  unfold convertRelative. simpl.
  rewrite (append_loop_map (λ track, fold_left _ track [])). simpl.
  apply map_ext. intros track. by rewrite append_loop_map.
Qed.

Lemma convertParallel_tracks mid tonicpc :
  tracks (convertParallel mid tonicpc)
  = map (map (parallel_msg (transposed tonicpc))) (tracks mid).
Proof.
  unfold convertParallel. simpl.
  rewrite (append_loop_map (λ track, fold_left _ track [])). simpl.
  apply map_ext. intros track. by rewrite append_loop_map.
Qed.

Lemma event_at_convertRelative mid i j :
  event_at (convertRelative mid) i j = relative_msg <$> event_at mid i j.
Proof.
  unfold event_at. rewrite convertRelative_tracks, list_lookup_fmap.
  destruct (tracks mid !! i) as [track|]; simpl; [|done].
  by rewrite list_lookup_fmap.
Qed.

Lemma event_at_convertParallel mid tonicpc i j :
  event_at (convertParallel mid tonicpc) i j
  = parallel_msg (transposed tonicpc) <$> event_at mid i j.
Proof.
  unfold event_at. rewrite convertParallel_tracks, list_lookup_fmap.
  destruct (tracks mid !! i) as [track|]; simpl; [|done].
  by rewrite list_lookup_fmap.
Qed.

Lemma elem_of_transposed tonicpc pitch :
  pitch mod 12 ∈ transposed tonicpc ↔ raised_class tonicpc pitch.
Proof.
  unfold transposed, raised_class.
  rewrite !elem_of_union, !elem_of_singleton. tauto.
Qed.

Lemma same_except_pitch_relative msg : same_except_pitch msg (relative_msg msg).
Proof. by destruct msg. Qed.

Lemma same_except_pitch_parallel tr msg : same_except_pitch msg (parallel_msg tr msg).
Proof.
  unfold parallel_msg. destruct msg; simpl; try case_bool_decide; by simpl.
Qed.

Lemma msg_time_relative msg : msg_time (relative_msg msg) = msg_time msg.
Proof. by destruct msg. Qed.

Lemma msg_time_parallel tr msg : msg_time (parallel_msg tr msg) = msg_time msg.
Proof.
  unfold parallel_msg. destruct msg; simpl; try case_bool_decide; by simpl.
Qed.

Lemma Forall2_map_same {A} (R : A → A → Prop) (f : A → A) (l : list A) :
  (∀ x, R x (f x)) → Forall2 R l (map f l).
Proof. intros HR. induction l; simpl; constructor; auto. Qed.

Example a_minor_detected : analyseKey a_minor_doc = (9, "minor").
Proof. vm_compute. reflexivity. Qed.

Example relative_clamps :
  tracks (convertRelative clamp_doc) = [[NoteOn 0 127 64 0; NoteOff 0 127 0 96]].
Proof. reflexivity. Qed.

Example parallel_c_minor :
  tracks (convertParallel mixed_doc 0)
  = [ [Other "set_tempo" [500000] 0; NoteOn 0 60 80 0; NoteOn 0 64 80 10;
       NoteOff 0 60 0 470; NoteOff 0 64 0 10; NoteOn 1 126 90 0; NoteOff 1 126 0 5];
      [NoteOn 2 69 70 3; Other "control_change" [7; 100] 1; NoteOn 2 69 0 4] ].
Proof. vm_compute. reflexivity. Qed.

(** ** Relative major *)

(** C4. [convertRelative] replaces the pitch of every note-on and note-off
    event by [min 127 (pitch + 3)] and leaves everything else of the event
    alone; events that are not notes come out as they went in.  The new pitch
    never wraps: it is [pitch + 3] up to 124 and exactly 127 above. *)
Theorem convertRelative_pitch mid i j msg :
  event_at mid i j = Some msg →
  ∃ msg',
    event_at (convertRelative mid) i j = Some msg' ∧
    same_except_pitch msg msg' ∧
    msg_note msg' = (λ n, Z.min 127 (n + 3)) <$> msg_note msg ∧
    (is_note msg = false → msg' = msg) ∧
    (∀ n, msg_note msg = Some n →
       (n ≤ 124 → msg_note msg' = Some (n + 3)) ∧
       (124 < n → msg_note msg' = Some 127)).
Proof.
  intros Hev. exists (relative_msg msg).
  rewrite event_at_convertRelative, Hev. split; [done|].
  split; [apply same_except_pitch_relative|].
  destruct msg as [c n v t|c n v t|k d t]; simpl.
  - split; [done|]. split; [done|]. intros n' [= <-].
    split; intros Hn; f_equal; lia.
  - split; [done|]. split; [done|]. intros n' [= <-].
    split; intros Hn; f_equal; lia.
  - repeat split; done.
Qed.

Lemma convertRelative_pitch_witness :
  ∃ msg',
    event_at (convertRelative mixed_doc) 0 5 = Some msg' ∧
    same_except_pitch (NoteOn 1 126 90 0) msg' ∧
    msg_note msg' = Some 127.
Proof.
  destruct (convertRelative_pitch mixed_doc 0 5 (NoteOn 1 126 90 0))
    as (msg' & Hev & Hsame & Hnote & _); [reflexivity|].
  exists msg'. split; [exact Hev|]. split; [exact Hsame|exact Hnote].
Defined.

(** ** Parallel major *)

(** C3, as amended.  For a note event of pitch [n ≤ 127], [convertParallel]
    emits a different event exactly when [n mod 12] is one of the three raised
    classes and [n < 127]; the event it then emits is the input with pitch
    [n + 1].  In a raised class the emitted pitch is [min 127 (n + 1)], so a
    note at 127 stays at 127.  Events that are not notes are emitted as they
    are. *)
Theorem convertParallel_pitch mid tonicpc i j msg :
  event_at mid i j = Some msg →
  ∃ msg',
    event_at (convertParallel mid tonicpc) i j = Some msg' ∧
    (is_note msg = false → msg' = msg) ∧
    (∀ n, msg_note msg = Some n → n ≤ 127 →
       (msg' ≠ msg ↔ raised_class tonicpc n ∧ n < 127) ∧
       (msg' ≠ msg → msg' = with_note msg (n + 1)) ∧
       (raised_class tonicpc n → msg_note msg' = Some (Z.min 127 (n + 1)))).
Proof.
  intros Hev. exists (parallel_msg (transposed tonicpc) msg).
  rewrite event_at_convertParallel, Hev. split; [done|].
  unfold parallel_msg.
  destruct msg as [c n v t|c n v t|k d t]; simpl; [| |by split].
  - split; [done|]. intros n' [= <-] Hmax.
    case_bool_decide as Hin; rewrite elem_of_transposed in Hin; simpl.
    + split; [|split].
      * split.
        -- intros Hne. split; [done|].
           destruct (decide (n = 127)) as [->|]; [|lia]. by destruct Hne.
        -- intros [_ Hlt] [=]. lia.
      * intros Hne. f_equal.
        destruct (decide (n = 127)) as [->|]; [|lia]. by destruct Hne.
      * done.
    + split; [|split]; [split| |]; try done. by intros [? _].
  - split; [done|]. intros n' [= <-] Hmax.
    case_bool_decide as Hin; rewrite elem_of_transposed in Hin; simpl.
    + split; [|split].
      * split.
        -- intros Hne. split; [done|].
           destruct (decide (n = 127)) as [->|]; [|lia]. by destruct Hne.
        -- intros [_ Hlt] [=]. lia.
      * intros Hne. f_equal.
        destruct (decide (n = 127)) as [->|]; [|lia]. by destruct Hne.
      * done.
    + split; [|split]; [split| |]; try done. by intros [? _].
Qed.

Lemma convertParallel_pitch_witness :
  event_at (convertParallel mixed_doc 0) 0 2 = Some (NoteOn 0 64 80 10).
Proof.
  destruct (convertParallel_pitch mixed_doc 0 0 2 (NoteOn 0 63 80 10))
    as (msg' & Hev & _ & Hnote); [reflexivity|].
  destruct (Hnote 63) as (Hiff & Hup & _); [reflexivity|lia|].
  rewrite Hev. f_equal. apply Hup, Hiff.
  split; [left; reflexivity|lia].
Defined.

(** C3 fails as stated at the clamp: with tonic 4 (E) the class of pitch 127
    is the minor third and is raised, yet the event comes out unchanged. *)
Lemma convertParallel_clamp_counterexample :
  raised_class 4 127 ∧
  event_at clamp_doc 0 0 = Some (NoteOn 0 127 64 0) ∧
  ¬ (event_at (convertParallel clamp_doc 4) 0 0 ≠ event_at clamp_doc 0 0
     ↔ raised_class 4 127).
Proof.
  assert (Hr : raised_class 4 127) by (left; reflexivity).
  split; [exact Hr|]. split; [reflexivity|].
  intros [_ Hchg]. apply (Hchg Hr). reflexivity.
Qed.

(** ** What both transposers leave alone *)

(** C6. Both transposers keep the file type and the ticks per beat, the
    number of tracks, the number of events of every track, and every delta
    time; track by track and event by event, the output differs from the input
    at most in the pitch of note events. *)
Theorem transposers_frame mid tonicpc :
  same_frame mid (convertRelative mid) ∧
  same_frame mid (convertParallel mid tonicpc).
Proof.
  unfold same_frame. split.
  - split; [done|]. split; [done|]. rewrite convertRelative_tracks.
    split; [by rewrite length_map|].
    split; [|split].
    + rewrite map_map. apply map_ext. intros. by rewrite length_map.
    + rewrite map_map. apply map_ext. intros track. rewrite map_map.
      apply map_ext. apply msg_time_relative.
    + apply Forall2_map_same. intros track. apply Forall2_map_same.
      apply same_except_pitch_relative.
  - split; [done|]. split; [done|]. rewrite convertParallel_tracks.
    split; [by rewrite length_map|].
    split; [|split].
    + rewrite map_map. apply map_ext. intros. by rewrite length_map.
    + rewrite map_map. apply map_ext. intros track. rewrite map_map.
      apply map_ext. apply msg_time_parallel.
    + apply Forall2_map_same. intros track. apply Forall2_map_same.
      apply same_except_pitch_parallel.
Qed.

(** * Properties of the key finder *)

(** ** The walk over a track *)

Lemma run_track_snoc g pre msg :
  run_track g (pre ++ [msg]) = on_message (run_track g pre) msg.
Proof. unfold run_track. by rewrite fold_left_app. Qed.

Lemma run_track_app g pre post :
  run_track g (pre ++ post) = fold_left on_message post (run_track g pre).
Proof. unfold run_track. by rewrite fold_left_app. Qed.

Lemma on_message_clock s msg :
  currentTime (on_message s msg).2 = currentTime s.2 + msg_time msg.
Proof.
  destruct s as [g c]. unfold on_message, note_end.
  destruct msg as [ch n v t|ch n v t|k d t]; simpl;
    repeat case_match; done.
Qed.

Lemma elapsed_snoc pre msg : elapsed (pre ++ [msg]) = elapsed pre + msg_time msg.
Proof. unfold elapsed. induction pre as [|x pre IH]; simpl; lia. Qed.

Lemma run_track_clock g track : currentTime (run_track g track).2 = elapsed track.
Proof.
  induction track as [|msg pre IH] using rev_ind; [done|].
  by rewrite run_track_snoc, on_message_clock, IH, elapsed_snoc.
Qed.

Lemma accumulate_snoc ty tpb trks track :
  accumulate (mkMidiFile ty tpb (trks ++ [track]))
  = scan_track (accumulate (mkMidiFile ty tpb trks)) track.
Proof. unfold accumulate. simpl. by rewrite fold_left_app. Qed.

Lemma is_off_on_message g c msg n :
  is_off msg = true → msg_note msg = Some n →
  on_message (g, c) msg = note_end g (active c) n (currentTime c + msg_time msg).
Proof.
  destruct msg as [ch n' v t|ch n' v t|k d t]; simpl; [| |done].
  - intros Hv [= ->]. apply Z.eqb_eq in Hv. subst v. done.
  - by intros _ [= ->].
Qed.

(** C2. Walking a track starts its clock at 0 whatever the earlier tracks
    left behind: before an event the clock is the sum of the delta times of
    the events before it, and the event advances it by its own delta time.
    A note-on of positive velocity stores the advanced clock as the onset of
    its pitch, replacing any onset stored there.  A note-off, or a note-on of
    velocity 0, whose pitch has a stored onset adds the clock minus the onset
    to the accumulator of [pitch mod 12] and to [totalDuration], and removes
    the onset.  The accumulators are carried from one track to the next. *)
Theorem track_walk g pre msg :
  let s := run_track g pre in
  let now := elapsed pre + msg_time msg in
  run_track g [] = (g, mkCursor ∅ 0) ∧
  currentTime s.2 = elapsed pre ∧
  run_track g (pre ++ [msg]) = on_message s msg ∧
  currentTime (on_message s msg).2 = now ∧
  (∀ ch n v t, msg = NoteOn ch n v t → 0 < v →
     on_message s msg = (s.1, mkCursor (<[n := now]> (active s.2)) now)) ∧
  (∀ n onset, is_off msg = true → msg_note msg = Some n →
     active s.2 !! n = Some onset →
     on_message s msg
     = (mkTally (<[n mod 12 := default 0 (cpitchc s.1 !! (n mod 12)) + (now - onset)]>
                   (cpitchc s.1))
                (totalDuration s.1 + (now - onset)),
        mkCursor (delete n (active s.2)) now)) ∧
  (∀ ty tpb trks,
     accumulate (mkMidiFile ty tpb (trks ++ [pre]))
     = (run_track (accumulate (mkMidiFile ty tpb trks)) pre).1).
Proof.
  intros s now. pose proof (run_track_clock g pre) as Hclock. fold s in Hclock.
  split; [done|]. split; [done|]. split; [apply run_track_snoc|].
  split; [by rewrite on_message_clock, Hclock|].
  split; [|split].
  - intros ch n v t -> Hv. destruct s as [g' c]. simpl in *.
    apply Z.ltb_lt in Hv. rewrite Hv, Hclock. done.
  - intros n onset Hoff Hnote Hact. destruct s as [g' c].
    rewrite (is_off_on_message _ _ msg n) by done.
    simpl in *. unfold note_end. rewrite Hact, Hclock. done.
  - intros. apply accumulate_snoc.
Qed.

Lemma track_walk_witness :
  on_message (run_track tally0 [NoteOn 0 69 80 120]) (NoteOff 0 69 0 480)
  = (mkTally {[ 9 := 480 ]} 480, mkCursor ∅ 600).
Proof.
  destruct (track_walk tally0 [NoteOn 0 69 80 120] (NoteOff 0 69 0 480))
    as (_ & _ & _ & _ & _ & Hoff & _).
  rewrite (Hoff 69 120); [|reflexivity|reflexivity|reflexivity].
  reflexivity.
Defined.

(** C7. A note-off, or a note-on of velocity 0, whose pitch has no stored
    onset in its track only advances the clock: the accumulators and the
    stored onsets stay as they are, and the rest of the walk goes on exactly
    as if a non-note event of the same delta time stood in its place. *)
Theorem unmatched_off_ignored g pre msg post n :
  is_off msg = true → msg_note msg = Some n →
  active (run_track g pre).2 !! n = None →
  on_message (run_track g pre) msg
  = ((run_track g pre).1,
     mkCursor (active (run_track g pre).2)
              (currentTime (run_track g pre).2 + msg_time msg)) ∧
  run_track g (pre ++ msg :: post)
  = run_track g (pre ++ Other "" [] (msg_time msg) :: post).
Proof.
  intros Hoff Hnote Hact.
  assert (Hstep : on_message (run_track g pre) msg
                  = on_message (run_track g pre) (Other "" [] (msg_time msg))).
  { destruct (run_track g pre) as [g' c]. simpl in Hact.
    rewrite (is_off_on_message _ _ msg n) by done.
    unfold note_end. by rewrite Hact. }
  split.
  - rewrite Hstep. by destruct (run_track g pre) as [g' c].
  - rewrite !run_track_app. simpl. by rewrite Hstep.
Qed.

Lemma unmatched_off_ignored_witness :
  run_track tally0 [NoteOn 0 60 80 0; NoteOff 0 62 0 240; NoteOff 0 60 0 240]
  = run_track tally0 [NoteOn 0 60 80 0; Other "" [] 240; NoteOff 0 60 0 240].
Proof.
  apply (unmatched_off_ignored tally0 [NoteOn 0 60 80 0] (NoteOff 0 62 0 240)
           [NoteOff 0 60 0 240] 62); reflexivity.
Defined.

(** ** Onsets that are never closed *)

Lemma on_message_agree_but n s s' msg :
  agree_but n s s' → ¬ ends_pitch n msg →
  agree_but n (on_message s msg) (on_message s' msg).
Proof.
  destruct s as [g c], s' as [g' c']. intros (Hg & Hclk & Hact) Hend.
  simpl in Hg, Hclk, Hact. subst g'.
  assert (Hnote_end : ∀ p, p ≠ n →
            agree_but n (note_end g (active c) p (currentTime c + msg_time msg))
                        (note_end g (active c') p (currentTime c' + msg_time msg))).
  { intros p Hp. unfold note_end. rewrite <- (Hact p Hp), <- Hclk.
    destruct (active c !! p) as [onset|]; (split; [done|]); (split; [done|]);
      simpl; intros k Hk; [|by apply Hact].
    destruct (decide (p = k)) as [->|Hpk].
    - by rewrite !lookup_delete_eq.
    - rewrite !lookup_delete_ne by done. by apply Hact. }
  destruct msg as [ch p v t|ch p v t|kind d t]; simpl.
  - destruct (0 <? v) eqn:Hpos.
    + split; [done|]. split; [simpl; lia|]. simpl. intros k Hk.
      rewrite Hclk. destruct (decide (p = k)) as [->|Hpk].
      * by rewrite !lookup_insert_eq.
      * rewrite !lookup_insert_ne by done. by apply Hact.
    + destruct (v =? 0) eqn:Hzero.
      * apply Hnote_end. intros ->. apply Hend. by split.
      * split; [done|]. split; [simpl; lia|]. done.
  - apply Hnote_end. intros ->. apply Hend. by split.
  - split; [done|]. split; [simpl; lia|]. done.
Qed.

Lemma fold_agree_but n post s s' :
  agree_but n s s' → Forall (λ msg, ¬ ends_pitch n msg) post →
  agree_but n (fold_left on_message post s) (fold_left on_message post s').
Proof.
  revert s s'. induction post as [|msg post IH]; intros s s' Hs Hpost; [done|].
  inversion Hpost; subst. simpl. apply IH; [|done].
  by apply on_message_agree_but.
Qed.

Lemma scan_track_dangling g pre ch n v t post :
  0 < v → Forall (λ msg, ¬ ends_pitch n msg) post →
  scan_track g (pre ++ NoteOn ch n v t :: post)
  = scan_track g (pre ++ Other "" [] t :: post).
Proof.
  intros Hv Hpost. unfold scan_track. rewrite !run_track_app. simpl.
  assert (Hagree : agree_but n (on_message (run_track g pre) (NoteOn ch n v t))
                               (on_message (run_track g pre) (Other "" [] t))).
  { destruct (run_track g pre) as [g' c]. simpl.
    apply Z.ltb_lt in Hv. rewrite Hv.
    split; [done|]. split; [done|]. simpl. intros k Hk.
    by rewrite lookup_insert_ne. }
  exact (proj1 (fold_agree_but n post _ _ Hagree Hpost)).
Qed.

Lemma accumulate_middle ty tpb before track after :
  accumulate (mkMidiFile ty tpb (before ++ track :: after))
  = fold_left scan_track after
      (scan_track (accumulate (mkMidiFile ty tpb before)) track).
Proof. unfold accumulate. simpl. by rewrite fold_left_app. Qed.

(** C9. A note-on of positive velocity that no later note-off, and no later
    note-on of velocity 0, of the same pitch follows in its track adds nothing:
    the accumulators after the track, and after the whole file, are those
    obtained when a non-note event of the same delta time stands in its place,
    and so is the detected key. *)
Theorem dangling_onset_discarded g pre ch n v t post :
  0 < v → Forall (λ msg, ¬ ends_pitch n msg) post →
  scan_track g (pre ++ NoteOn ch n v t :: post)
  = scan_track g (pre ++ Other "" [] t :: post) ∧
  ∀ ty tpb before after,
    accumulate (mkMidiFile ty tpb (before ++ (pre ++ NoteOn ch n v t :: post) :: after))
    = accumulate (mkMidiFile ty tpb (before ++ (pre ++ Other "" [] t :: post) :: after)) ∧
    analyseKey (mkMidiFile ty tpb (before ++ (pre ++ NoteOn ch n v t :: post) :: after))
    = analyseKey (mkMidiFile ty tpb (before ++ (pre ++ Other "" [] t :: post) :: after)).
Proof.
  intros Hv Hpost. split; [by apply scan_track_dangling|].
  intros ty tpb before after.
  assert (Hacc : accumulate (mkMidiFile ty tpb
                   (before ++ (pre ++ NoteOn ch n v t :: post) :: after))
                 = accumulate (mkMidiFile ty tpb
                   (before ++ (pre ++ Other "" [] t :: post) :: after))).
  { rewrite !accumulate_middle. f_equal. by apply scan_track_dangling. }
  split; [done|]. unfold analyseKey. by rewrite Hacc.
Qed.

Lemma dangling_onset_discarded_witness :
  accumulate (mkMidiFile 1 480
    [one_note 60 480; [NoteOn 0 64 80 0; NoteOn 0 67 90 100; NoteOff 0 64 0 380]])
  = accumulate (mkMidiFile 1 480
    [one_note 60 480; [NoteOn 0 64 80 0; Other "" [] 100; NoteOff 0 64 0 380]]).
Proof.
  destruct (dangling_onset_discarded tally0 [NoteOn 0 64 80 0] 0 67 90 100
              [NoteOff 0 64 0 380]) as [_ Hdoc].
  - reflexivity.
  - constructor; [|constructor]. intros [_ Hnote]. discriminate Hnote.
  - destruct (Hdoc 1 480 [one_note 60 480] []) as [Hacc _]. exact Hacc.
Defined.

(** ** Octaves *)

Lemma on_message_shifted s s' msg :
  shifted 12 s s' →
  shifted 12 (on_message s msg) (on_message s' (transpose_msg 12 msg)).
Proof.
  destruct s as [g c], s' as [g' c']. intros (Hg & Hclk & Hact).
  simpl in Hg, Hclk, Hact. subst g'.
  assert (Hnote_end : ∀ p now,
            shifted 12 (note_end g (active c) p now)
                       (note_end g (active c') (p + 12) now)).
  { intros p now. unfold note_end. rewrite Hact.
    replace ((p + 12) mod 12) with (p mod 12)
      by (symmetry; apply (Z_mod_plus_full p 1 12)).
    destruct (active c !! p) as [onset|]; (split; [done|]); (split; [done|]);
      simpl; intros k; [|by apply Hact].
    destruct (decide (p = k)) as [->|Hpk].
    - by rewrite !lookup_delete_eq.
    - rewrite !lookup_delete_ne by lia. by apply Hact. }
  destruct msg as [ch p v t|ch p v t|kind d t]; simpl; rewrite <- Hclk.
  - destruct (0 <? v) eqn:Hpos.
    + split; [done|]. split; [done|]. simpl. intros k.
      destruct (decide (p = k)) as [->|Hpk].
      * by rewrite !lookup_insert_eq.
      * rewrite !lookup_insert_ne by lia. by apply Hact.
    + destruct (v =? 0) eqn:Hzero; [apply Hnote_end|].
      split; [done|]. split; done.
  - apply Hnote_end.
  - split; [done|]. split; done.
Qed.

Lemma run_track_shifted g track :
  shifted 12 (run_track g track) (run_track g (map (transpose_msg 12) track)).
Proof.
  induction track as [|msg pre IH] using rev_ind.
  - split; [done|]. split; [done|]. intros p. simpl. by rewrite !lookup_empty.
  - rewrite map_app. simpl. rewrite !run_track_snoc. by apply on_message_shifted.
Qed.

Lemma accumulate_transpose12 mid :
  accumulate (transpose_doc 12 mid) = accumulate mid.
Proof.
  unfold accumulate, transpose_doc. simpl. generalize tally0.
  induction (tracks mid) as [|track trks IH]; intros g; [done|].
  simpl. rewrite <- IH. f_equal. unfold scan_track.
  symmetry. apply (run_track_shifted g track).
Qed.

(** C10. When no note of a file is above pitch 115, moving every note-on
    and note-off up by 12 semitones gives a file whose pitches are still at
    most 127 and for which [analyseKey] returns the same key. *)
Theorem analyseKey_octave mid :
  pitches_at_most 115 mid →
  pitches_at_most 127 (transpose_doc 12 mid) ∧
  accumulate (transpose_doc 12 mid) = accumulate mid ∧
  analyseKey (transpose_doc 12 mid) = analyseKey mid.
Proof.
  intros Hmax. split; [|split].
  - unfold pitches_at_most, transpose_doc in *. simpl.
    apply Forall_fmap. eapply Forall_impl; [exact Hmax|].
    intros track Htrack. apply Forall_fmap. eapply Forall_impl; [exact Htrack|].
    intros msg Hmsg n. destruct msg as [ch p v t|ch p v t|kind d t]; simpl.
    + intros [= <-]. specialize (Hmsg p eq_refl). lia.
    + intros [= <-]. specialize (Hmsg p eq_refl). lia.
    + done.
  - apply accumulate_transpose12.
  - unfold analyseKey. by rewrite accumulate_transpose12.
Qed.

Lemma analyseKey_octave_witness :
  analyseKey (transpose_doc 12 a_minor_doc) = analyseKey a_minor_doc.
Proof.
  apply analyseKey_octave.
  unfold pitches_at_most, a_minor_doc, one_note. simpl.
  repeat (constructor; [repeat (constructor; [intros ? [= <-]; lia|]); constructor|]).
  constructor.
Defined.

(** ** Silent files *)

Lemma on_message_no_note s msg :
  is_note msg = false → (on_message s msg).1 = s.1.
Proof. destruct s as [g c], msg; simpl; done. Qed.

Lemma scan_track_no_notes g track :
  Forall (λ msg, is_note msg = false) track → scan_track g track = g.
Proof.
  unfold scan_track. induction track as [|msg pre IH] using rev_ind; [done|].
  intros [Hpre Hmsg]%Forall_app. rewrite run_track_snoc.
  rewrite on_message_no_note; [by apply IH|].
  by inversion Hmsg.
Qed.

Lemma accumulate_no_notes mid :
  Forall (Forall (λ msg, is_note msg = false)) (tracks mid) →
  accumulate mid = tally0.
Proof.
  unfold accumulate. generalize tally0.
  induction (tracks mid) as [|track trks IH]; intros g Hall; [done|].
  inversion Hall; subst. simpl. rewrite scan_track_no_notes by done. by apply IH.
Qed.

(** C5. [analyseKey] is a total function, and on every file whose
    [totalDuration] is 0 after the walk it returns the default key
    (0, minor); in particular it does so on a file without tracks and on a
    file without note events. *)
Theorem analyseKey_silent mid :
  totalDuration (accumulate mid) = 0 ∨
    Forall (Forall (λ msg, is_note msg = false)) (tracks mid) →
  analyseKey mid = (0, "minor").
Proof.
  intros H. assert (Hzero : totalDuration (accumulate mid) = 0).
  { destruct H as [H|H]; [done|]. by rewrite accumulate_no_notes. }
  unfold analyseKey. by rewrite Hzero.
Qed.

Lemma analyseKey_silent_witness :
  analyseKey (mkMidiFile 1 480 [[NoteOff 0 60 0 10; NoteOn 0 62 80 5; NoteOff 0 62 0 0;
                                 NoteOn 0 64 80 100]; []]) = (0, "minor")
  ∧ analyseKey (mkMidiFile 0 96 []) = (0, "minor").
Proof.
  split; apply analyseKey_silent.
  - left. reflexivity.
  - right. constructor.
Defined.

(** ** The scoring loops *)

Lemma consider_pick hist i st :
  fold_left (consider hist i) profiles st
  = fold_left (pick hist) [(i, "major"); (i, "minor")] st.
Proof. reflexivity. Qed.

Lemma tonic_loop_candidates hist (tonics : list Z) st :
  fold_left (λ st i, fold_left (consider hist i) profiles st) tonics st
  = fold_left (pick hist) (i ← tonics; [(i, "major"); (i, "minor")]) st.
Proof.
  revert st. induction tonics as [|i tonics IH]; intros st; [done|].
  transitivity (fold_left (pick hist) (i ← tonics; [(i, "major"); (i, "minor")])
                  (fold_left (pick hist) [(i, "major"); (i, "minor")] st)).
  - rewrite <- consider_pick. apply IH.
  - symmetry. apply (fold_left_app (pick hist) [(i, "major"); (i, "minor")]).
Qed.

Lemma search_candidates hist :
  search hist = fold_left (pick hist) candidates ((-1)%Q, (0, "minor")).
Proof. apply tonic_loop_candidates. Qed.

Lemma Qgtb_true x y : Qgtb x y = true ↔ (y < x)%Q.
Proof.
  unfold Qgtb. rewrite negb_true_iff. split.
  - intros H. apply Qnot_le_lt. intros Hle. apply Qle_bool_iff in Hle. congruence.
  - intros H. destruct (Qle_bool x y) eqn:Hb; [|done].
    apply Qle_bool_iff in Hb. exfalso. by apply (Qlt_not_le y x).
Qed.

Lemma Qgtb_false x y : Qgtb x y = false ↔ (x <= y)%Q.
Proof.
  unfold Qgtb. rewrite negb_false_iff. apply Qle_bool_iff.
Qed.

Lemma fold_pick_key hist l st :
  (fold_left (pick hist) l st).2 = st.2 ∨ (fold_left (pick hist) l st).2 ∈ l.
Proof.
  revert st. induction l as [|key l IH]; intros st; simpl; [by left|].
  destruct (IH (pick hist st key)) as [Heq|Hin].
  - rewrite Heq. unfold pick. destruct (Qgtb _ _); simpl; [right; left|by left].
  - right. by right.
Qed.

(** The loops return the first key of the list whose score is above the
    initial best and is not exceeded anywhere in the list, or the initial
    state when no score is above the initial best. *)
Lemma fold_pick_first_max hist l st :
  (fold_left (pick hist) l st = st ∧ Forall (λ key, score hist key <= st.1)%Q l) ∨
  (∃ l1 key l2,
     l = l1 ++ key :: l2 ∧
     fold_left (pick hist) l st = (score hist key, key) ∧
     (st.1 < score hist key)%Q ∧
     Forall (λ key', score hist key' < score hist key)%Q l1 ∧
     Forall (λ key', score hist key' <= score hist key)%Q l2).
Proof.
  revert st. induction l as [|x l IH]; intros st; simpl; [by left|].
  destruct (Qgtb (score hist x) st.1) eqn:Hgt.
  - assert (Hpick : pick hist st x = (score hist x, x))
      by (unfold pick; by rewrite Hgt).
    rewrite Hpick. apply Qgtb_true in Hgt. right.
    destruct (IH (score hist x, x))
      as [[Hsame Hall]|(l1 & key & l2 & -> & Hres & Hlt & H1 & H2)].
    + exists [], x, l. simpl in *. repeat split; try done.
    + exists (x :: l1), key, l2. simpl in *. repeat split; try done.
      * by apply Qlt_trans with (score hist x).
      * constructor; [done|done].
  - assert (Hpick : pick hist st x = st) by (unfold pick; by rewrite Hgt).
    rewrite Hpick. apply Qgtb_false in Hgt.
    destruct (IH st) as [[Hsame Hall]|(l1 & key & l2 & -> & Hres & Hlt & H1 & H2)].
    + left. split; [done|]. by constructor.
    + right. exists (x :: l1), key, l2. simpl. repeat split; try done.
      constructor; [|done]. by apply Qle_lt_trans with st.1.
Qed.

Lemma candidates_range key :
  key ∈ candidates → 0 ≤ key.1 ≤ 11 ∧ (key.2 = "major" ∨ key.2 = "minor").
Proof.
  assert (Hall : Forall (λ key : Z * string,
                   0 ≤ key.1 ≤ 11 ∧ (key.2 = "major" ∨ key.2 = "minor")) candidates).
  { unfold candidates. simpl.
    repeat (constructor; [simpl; split; [lia|auto]|]). constructor. }
  rewrite Forall_forall in Hall. apply Hall.
Qed.

Lemma analyseKey_range mid :
  0 ≤ (analyseKey mid).1 ≤ 11 ∧
  ((analyseKey mid).2 = "major" ∨ (analyseKey mid).2 = "minor").
Proof.
  unfold analyseKey. destruct (totalDuration (accumulate mid) =? 0).
  - simpl. split; [lia|by right].
  - rewrite search_candidates.
    destruct (fold_pick_key (pitchClassHistogram (accumulate mid)) candidates
                ((-1)%Q, (0, "minor"))) as [-> | Hin].
    + simpl. split; [lia|by right].
    + by apply candidates_range.
Qed.

(** C8. [analyseKey] is a function of the file alone: equal files give
    equal keys.  The tonic it returns is between 0 and 11 and the mode is
    ["major"] or ["minor"]. *)
Theorem analyseKey_deterministic mid1 mid2 :
  mid1 = mid2 →
  analyseKey mid1 = analyseKey mid2 ∧
  0 ≤ (analyseKey mid1).1 ≤ 11 ∧
  ((analyseKey mid1).2 = "major" ∨ (analyseKey mid1).2 = "minor").
Proof.
  intros <-. split; [done|]. apply analyseKey_range.
Qed.

Lemma analyseKey_deterministic_witness :
  analyseKey mixed_doc = analyseKey mixed_doc ∧
  0 ≤ (analyseKey mixed_doc).1 ≤ 11 ∧
  ((analyseKey mixed_doc).2 = "major" ∨ (analyseKey mixed_doc).2 = "minor").
Proof. apply analyseKey_deterministic. reflexivity. Defined.

(** ** The histogram is normalised *)

Lemma sum_classes_insert (m : gmap Z Z) k d classes :
  NoDup classes →
  sum_classes (<[k := default 0 (m !! k) + d]> m) classes
  = sum_classes m classes + (if bool_decide (k ∈ classes) then d else 0).
Proof.
  induction 1 as [|i classes Hi Hnd IH]; simpl; [done|].
  rewrite IH. destruct (decide (k = i)) as [->|Hki].
  - rewrite lookup_insert_eq. simpl.
    rewrite (bool_decide_eq_false_2 _ Hi).
    rewrite bool_decide_eq_true_2 by left. lia.
  - rewrite lookup_insert_ne by done.
    destruct (decide (k ∈ classes)) as [Hin|Hout].
    + rewrite !bool_decide_eq_true_2; [lia|by right|done].
    + rewrite !bool_decide_eq_false_2; [lia| |done].
      by intros [?|?]%elem_of_cons.
Qed.

Lemma note_end_balanced g act n now :
  sum_classes (cpitchc g) (seqZ 0 12) = totalDuration g →
  sum_classes (cpitchc (note_end g act n now).1) (seqZ 0 12)
  = totalDuration (note_end g act n now).1.
Proof.
  intros Hbal. unfold note_end.
  destruct (act !! n) as [onset|]; cbn [fst cpitchc totalDuration]; [|done].
  rewrite sum_classes_insert by apply NoDup_seqZ.
  rewrite bool_decide_eq_true_2; [lia|].
  apply elem_of_seqZ. pose proof (Z.mod_pos_bound n 12). lia.
Qed.

Lemma on_message_balanced s msg :
  sum_classes (cpitchc s.1) (seqZ 0 12) = totalDuration s.1 →
  sum_classes (cpitchc (on_message s msg).1) (seqZ 0 12)
  = totalDuration (on_message s msg).1.
Proof.
  destruct s as [g c]. intros Hbal. simpl in Hbal.
  destruct msg as [ch n v t|ch n v t|kind d t]; simpl; [| |done].
  - destruct (0 <? v); [done|]. destruct (v =? 0); [|done].
    by apply note_end_balanced.
  - by apply note_end_balanced.
Qed.

Lemma scan_track_balanced g track :
  sum_classes (cpitchc g) (seqZ 0 12) = totalDuration g →
  sum_classes (cpitchc (scan_track g track)) (seqZ 0 12)
  = totalDuration (scan_track g track).
Proof.
  intros Hbal. unfold scan_track.
  induction track as [|msg pre IH] using rev_ind; [done|].
  rewrite run_track_snoc. by apply on_message_balanced.
Qed.

Lemma accumulate_balanced mid :
  sum_classes (cpitchc (accumulate mid)) (seqZ 0 12) = totalDuration (accumulate mid).
Proof.
  unfold accumulate. assert (H0 : sum_classes (cpitchc tally0) (seqZ 0 12)
                                  = totalDuration tally0) by done.
  revert H0. generalize tally0.
  induction (tracks mid) as [|track trks IH]; intros g Hbal; [done|].
  simpl. apply IH. by apply scan_track_balanced.
Qed.

Lemma Qsum_quotients (m : gmap Z Z) (total : Z) (classes : list Z) :
  Qeq (Qsum (map (λ i : Z, Qdiv (inject_Z (default 0 (m !! i))) (inject_Z total))
                 classes))
      (Qdiv (inject_Z (sum_classes m classes)) (inject_Z total)).
Proof.
  induction classes as [|i classes IH]; simpl.
  - unfold Qdiv. ring.
  - rewrite IH, inject_Z_plus. unfold Qdiv. ring.
Qed.

Lemma histogram_normalised mid :
  totalDuration (accumulate mid) ≠ 0 →
  (Qsum (pitchClassHistogram (accumulate mid)) == 1)%Q.
Proof.
  intros Hne. unfold pitchClassHistogram.
  rewrite Qsum_quotients, accumulate_balanced.
  apply Qmult_inv_r. intros Heq. apply Hne.
  apply (inject_Z_injective _ 0). exact Heq.
Qed.

(** ** Rotated profiles and the best score *)

Lemma roll_lookup {A} (a : list A) (shift j : Z) :
  0 ≤ j < Z.of_nat (length a) →
  roll a shift !! Z.to_nat ((j + shift) mod Z.of_nat (length a)) = a !! Z.to_nat j.
Proof.
  intros Hj. unfold roll.
  set (n := length a) in *.
  assert (Hs : 0 ≤ shift mod Z.of_nat n < Z.of_nat n) by (apply Z.mod_pos_bound; lia).
  rewrite <- Zplus_mod_idemp_r.
  set (s := shift mod Z.of_nat n) in *.
  destruct (decide (j + s < Z.of_nat n)) as [Hlt|Hge].
  - rewrite Z.mod_small by lia.
    rewrite lookup_app_r; rewrite length_drop; fold n; [|lia].
    replace (Z.to_nat (j + s) - (n - (n - Z.to_nat s)))%nat with (Z.to_nat j) by lia.
    apply lookup_take_lt. lia.
  - replace ((j + s) mod Z.of_nat n) with (j + s - Z.of_nat n).
    2:{ apply (Z.mod_unique_pos _ _ 1); lia. }
    rewrite lookup_app_l by (rewrite length_drop; fold n; lia).
    rewrite lookup_drop. f_equal. lia.
Qed.

Lemma candidates_order t :
  0 ≤ t < 12 →
  candidates !! (2 * Z.to_nat t)%nat = Some (t, "major") ∧
  candidates !! (2 * Z.to_nat t + 1)%nat = Some (t, "minor").
Proof.
  intros Ht.
  assert (Hcases : t = 0 ∨ t = 1 ∨ t = 2 ∨ t = 3 ∨ t = 4 ∨ t = 5 ∨ t = 6 ∨
                   t = 7 ∨ t = 8 ∨ t = 9 ∨ t = 10 ∨ t = 11) by lia.
  repeat (destruct Hcases as [->|Hcases]; [split; reflexivity|]).
  subst t. split; reflexivity.
Qed.

(** The twelve major scores of a histogram add up to the sum of the major
    profile times the sum of the histogram, so they cannot all be at most -1
    when the histogram adds up to 1. *)
Lemma some_score_above_initial (q0 q1 q2 q3 q4 q5 q6 q7 q8 q9 q10 q11 : Q) :
  (Qsum [q0; q1; q2; q3; q4; q5; q6; q7; q8; q9; q10; q11] == 1)%Q →
  ∃ key, key ∈ candidates ∧
    (-1 < score [q0; q1; q2; q3; q4; q5; q6; q7; q8; q9; q10; q11] key)%Q.
Proof.
  intros Hsum. cbv [Qsum foldr] in Hsum.
  pose (hist := [q0; q1; q2; q3; q4; q5; q6; q7; q8; q9; q10; q11]).
  change (∃ key, key ∈ candidates ∧ (-1 < score hist key)%Q).
  try_major hist 0 0%nat. try_major hist 1 2%nat. try_major hist 2 4%nat.
  try_major hist 3 6%nat. try_major hist 4 8%nat. try_major hist 5 10%nat.
  try_major hist 6 12%nat. try_major hist 7 14%nat. try_major hist 8 16%nat.
  try_major hist 9 18%nat. try_major hist 10 20%nat. try_major hist 11 22%nat.
  exfalso. subst hist.
  repeat match goal with H : (score _ _ <= _)%Q |- _ => expose_score H end.
  lra.
Qed.

Lemma histogram_score_above_initial mid :
  totalDuration (accumulate mid) ≠ 0 →
  ∃ key, key ∈ candidates ∧
    (-1 < score (pitchClassHistogram (accumulate mid)) key)%Q.
Proof.
  intros Hne. apply histogram_normalised in Hne.
  unfold pitchClassHistogram in *.
  change (seqZ 0 12) with [0; 1; 2; 3; 4; 5; 6; 7; 8; 9; 10; 11] in *.
  cbn [map] in *. by apply some_score_above_initial.
Qed.

Lemma histogram_lookup g i :
  0 ≤ i < 12 →
  pitchClassHistogram g !! Z.to_nat i
  = Some (Qdiv (inject_Z (default 0 (cpitchc g !! i))) (inject_Z (totalDuration g))).
Proof.
  intros Hi. unfold pitchClassHistogram. rewrite list_lookup_fmap.
  rewrite lookup_seqZ_lt by lia. simpl.
  by replace (0 + Z.of_nat (Z.to_nat i)) with i by lia.
Qed.

(** * Further properties of the transposers *)

Lemma convertRelative_unfold mid :
  convertRelative mid
  = mkMidiFile (type mid) (ticks_per_beat mid) (map (map relative_msg) (tracks mid)).
Proof.
  rewrite <- convertRelative_tracks. reflexivity.
Qed.

Lemma convertParallel_unfold mid tonicpc :
  convertParallel mid tonicpc
  = mkMidiFile (type mid) (ticks_per_beat mid)
      (map (map (parallel_msg (transposed tonicpc))) (tracks mid)).
Proof.
  rewrite <- convertParallel_tracks. reflexivity.
Qed.

Lemma map_map_id {A} (f : A → A) (ll : list (list A)) :
  Forall (Forall (λ x, f x = x)) ll → map (map f) ll = ll.
Proof.
  induction 1 as [|l ll Hl _ IH]; simpl; [done|]. f_equal; [|done].
  induction Hl as [|x l Hx _ IHl]; simpl; [done|]. by f_equal.
Qed.

Lemma map_map_id_inv {A} (f : A → A) (ll : list (list A)) :
  map (map f) ll = ll → Forall (Forall (λ x, f x = x)) ll.
Proof.
  induction ll as [|l ll IH]; simpl; [constructor|].
  intros [= Hl Hll]. constructor; [|by apply IH].
  clear -Hl. induction l as [|x l IHl]; simpl in *; [constructor|].
  injection Hl as Hx Hl. constructor; [done|by apply IHl].
Qed.

(** A raised class is one semitone below a class that is not raised. *)
Lemma raised_class_succ tonicpc n :
  raised_class tonicpc n → ¬ raised_class tonicpc (n + 1).
Proof.
  unfold raised_class. intros H H'.
  pose proof (Z.mod_pos_bound n 12). pose proof (Z.mod_pos_bound (n + 1) 12).
  pose proof (Z.mod_pos_bound (tonicpc + 3) 12).
  pose proof (Z.mod_pos_bound (tonicpc + 8) 12).
  pose proof (Z.mod_pos_bound (tonicpc + 10) 12).
  rewrite (Z.mod_eq n 12), (Z.mod_eq (n + 1) 12), (Z.mod_eq (tonicpc + 3) 12),
    (Z.mod_eq (tonicpc + 8) 12), (Z.mod_eq (tonicpc + 10) 12) in * by lia.
  lia.
Qed.

Lemma parallel_msg_idempotent tonicpc msg :
  parallel_msg (transposed tonicpc) (parallel_msg (transposed tonicpc) msg)
  = parallel_msg (transposed tonicpc) msg.
Proof.
  assert (Hnote : ∀ n,
    (if bool_decide (n mod 12 ∈ transposed tonicpc) then Z.min 127 (n + 1) else n)
    = n ∨ n mod 12 ∈ transposed tonicpc).
  { intros n. case_bool_decide; [by right|by left]. }
  assert (Hstable : ∀ n, n mod 12 ∈ transposed tonicpc →
    (if bool_decide (Z.min 127 (n + 1) mod 12 ∈ transposed tonicpc)
     then Z.min 127 (Z.min 127 (n + 1) + 1) else Z.min 127 (n + 1))
    = Z.min 127 (n + 1)).
  { intros n Hin. case_bool_decide as Hin'; [|done].
    destruct (decide (n + 1 ≤ 127)) as [Hle|Hgt]; [|lia].
    rewrite Z.min_r in Hin' by lia.
    apply elem_of_transposed in Hin, Hin'. by apply raised_class_succ in Hin. }
  unfold parallel_msg.
  destruct msg as [c n v t|c n v t|k d t]; simpl; [| |done].
  - case_bool_decide as Hin; simpl; [|by rewrite bool_decide_eq_false_2].
    specialize (Hstable n Hin). case_bool_decide; simpl; by f_equal.
  - case_bool_decide as Hin; simpl; [|by rewrite bool_decide_eq_false_2].
    specialize (Hstable n Hin). case_bool_decide; simpl; by f_equal.
Qed.

(** X1. Converting to the parallel major twice with the same tonic gives
    the same file as converting once: a raised note lands in a class that is
    not raised, and a note held at 127 by the clamp stays there. *)
Theorem convertParallel_idempotent mid tonicpc :
  convertParallel (convertParallel mid tonicpc) tonicpc = convertParallel mid tonicpc.
Proof.
  rewrite (convertParallel_unfold (convertParallel mid tonicpc)).
  rewrite (convertParallel_unfold mid). simpl. f_equal.
  rewrite map_map. apply map_ext. intros track. rewrite map_map.
  apply map_ext. intros msg. apply parallel_msg_idempotent.
Qed.

Lemma Forall_Forall_map {A} (P Q : A → Prop) (f : A → A) (ll : list (list A)) :
  (∀ x, P x → Q (f x)) →
  Forall (Forall P) ll → Forall (Forall Q) (map (map f) ll).
Proof.
  intros Hf Hll. apply Forall_fmap. eapply Forall_impl; [exact Hll|].
  intros l Hl. apply Forall_fmap. eapply Forall_impl; [exact Hl|]. exact Hf.
Qed.

Lemma pitches_in_range_relative mid :
  pitches_in_range mid → pitches_in_range (convertRelative mid).
Proof.
  unfold pitches_in_range. intros Hin.
  rewrite convertRelative_tracks. eapply Forall_Forall_map; [|exact Hin].
  intros msg Hmsg n. destruct msg as [c p v t|c p v t|k d t]; simpl; [| |done].
  - intros [= <-]. specialize (Hmsg p eq_refl). lia.
  - intros [= <-]. specialize (Hmsg p eq_refl). lia.
Qed.

Lemma pitches_in_range_parallel mid tonicpc :
  pitches_in_range mid → pitches_in_range (convertParallel mid tonicpc).
Proof.
  unfold pitches_in_range. intros Hin.
  rewrite convertParallel_tracks. eapply Forall_Forall_map; [|exact Hin].
  intros msg Hmsg n. unfold parallel_msg.
  destruct msg as [c p v t|c p v t|k d t]; simpl; [| |done].
  - specialize (Hmsg p eq_refl). case_bool_decide; simpl; intros [= <-]; lia.
  - specialize (Hmsg p eq_refl). case_bool_decide; simpl; intros [= <-]; lia.
Qed.

(** X2. Both transposers keep note pitches inside the MIDI range: when
    every note of the input is between 0 and 127, so is every note of the
    output. *)
Theorem transposers_keep_range mid tonicpc :
  pitches_in_range mid →
  pitches_in_range (convertRelative mid) ∧
  pitches_in_range (convertParallel mid tonicpc).
Proof.
  intros Hin. split;
    [by apply pitches_in_range_relative|by apply pitches_in_range_parallel].
Qed.

Lemma transposers_keep_range_witness :
  pitches_in_range (convertRelative mixed_doc) ∧
  pitches_in_range (convertParallel mixed_doc 0).
Proof.
  apply transposers_keep_range.
  unfold pitches_in_range, mixed_doc. simpl.
  repeat (constructor;
          [repeat (constructor; [intros ? [= <-] || intros ? [=]; lia|]); constructor|]).
  constructor.
Defined.

(** X3. On a file whose notes are at most 127, [convertParallel] returns
    a file equal to its input exactly when every note in a raised class is at
    127, and [convertRelative] exactly when every note is at 127; so both
    return a file without note events as it is. *)
Theorem transposers_fixed_files mid tonicpc :
  pitches_at_most 127 mid →
  (convertParallel mid tonicpc = mid ↔
   Forall (Forall (λ msg, ∀ n, msg_note msg = Some n →
                          raised_class tonicpc n → n = 127)) (tracks mid)) ∧
  (convertRelative mid = mid ↔
   Forall (Forall (λ msg, ∀ n, msg_note msg = Some n → n = 127)) (tracks mid)).
Proof.
  intros Hmax. unfold pitches_at_most in Hmax. split; split.
  - intros Heq. apply (f_equal tracks) in Heq.
    rewrite convertParallel_tracks in Heq. apply map_map_id_inv in Heq.
    eapply Forall_impl; [exact Heq|]. intros track Htrack. simpl in Htrack.
    eapply Forall_impl; [exact Htrack|]. intros msg Hfix n Hnote Hraised.
    unfold parallel_msg in Hfix. rewrite Hnote in Hfix.
    apply elem_of_transposed in Hraised.
    rewrite bool_decide_eq_true_2 in Hfix by done.
    destruct msg as [c p v t|c p v t|k d t]; simpl in *; [| |done];
      injection Hnote as ->; injection Hfix as Hfix; lia.
  - intros Hall. rewrite convertParallel_unfold. destruct mid as [ty tpb trks].
    simpl in *. f_equal. apply map_map_id.
    eapply Forall_impl; [exact Hall|]. intros track Htrack. simpl in Htrack.
    eapply Forall_impl; [exact Htrack|]. intros msg Hmsg.
    unfold parallel_msg. destruct msg as [c p v t|c p v t|k d t]; simpl; [| |done].
    + case_bool_decide as Hin; [|done]. apply elem_of_transposed in Hin.
      rewrite (Hmsg p eq_refl Hin). done.
    + case_bool_decide as Hin; [|done]. apply elem_of_transposed in Hin.
      rewrite (Hmsg p eq_refl Hin). done.
  - intros Heq. apply (f_equal tracks) in Heq.
    rewrite convertRelative_tracks in Heq. apply map_map_id_inv in Heq.
    clear Hmax. induction Heq as [|track trks Htrack _ IH]; constructor; [|done].
    eapply Forall_impl; [exact Htrack|]. intros msg Hfix n Hnote.
    destruct msg as [c p v t|c p v t|k d t]; simpl in *; [| |done];
      injection Hnote as ->; injection Hfix as Hfix; lia.
  - intros Hall. rewrite convertRelative_unfold. destruct mid as [ty tpb trks].
    simpl in *. f_equal. apply map_map_id.
    eapply Forall_impl; [exact Hall|]. intros track Htrack. simpl in Htrack.
    eapply Forall_impl; [exact Htrack|]. intros msg Hmsg.
    destruct msg as [c p v t|c p v t|k d t]; simpl; [| |done].
    + rewrite (Hmsg p eq_refl). done.
    + rewrite (Hmsg p eq_refl). done.
Qed.

Lemma transposers_fixed_files_witness :
  convertParallel clamp_doc 4 = clamp_doc ∧ convertRelative clamp_doc = clamp_doc.
Proof.
  destruct (transposers_fixed_files clamp_doc 4) as [Hpar Hrel].
  - unfold pitches_at_most, clamp_doc. simpl.
    repeat (constructor; [repeat (constructor; [intros ? [= <-]; lia|]); constructor|]).
    constructor.
  - split.
    + apply Hpar. unfold clamp_doc. simpl.
      repeat (constructor; [repeat (constructor; [by intros ? [= <-]|]); constructor|]).
      constructor.
    + apply Hrel. unfold clamp_doc. simpl.
      repeat (constructor; [repeat (constructor; [by intros ? [= <-]|]); constructor|]).
      constructor.
Defined.

Lemma raise_msg_compose a b msg :
  0 ≤ a → raise_msg a (raise_msg b msg) = raise_msg (b + a) msg.
Proof.
  intros Ha. destruct msg as [c n v t|c n v t|k d t]; simpl; [| |done];
    f_equal; lia.
Qed.

Lemma raise_doc_zero mid : pitches_at_most 127 mid → raise_doc 0 mid = mid.
Proof.
  unfold pitches_at_most, raise_doc. destruct mid as [ty tpb trks]. simpl.
  intros Hmax. f_equal. apply map_map_id.
  eapply Forall_impl; [exact Hmax|]. intros track Htrack. simpl in Htrack.
  eapply Forall_impl; [exact Htrack|]. intros msg Hmsg.
  destruct msg as [c n v t|c n v t|k d t]; simpl; [| |done];
    specialize (Hmsg n eq_refl); f_equal; lia.
Qed.

Lemma convertRelative_raise mid : convertRelative mid = raise_doc 3 mid.
Proof. rewrite convertRelative_unfold. reflexivity. Qed.

(** X4. Applying [convertRelative] [j] times to a file whose notes are at
    most 127 raises every note by [3 * j] semitones in one step, stopping at
    127: the clamp never lets repeated conversions wrap or pass 127. *)
Theorem convertRelative_iterated mid (j : nat) :
  pitches_at_most 127 mid →
  Nat.iter j convertRelative mid = raise_doc (3 * Z.of_nat j) mid.
Proof.
  intros Hmax. induction j as [|j IH].
  - simpl. by rewrite raise_doc_zero.
  - rewrite Nat.iter_succ, IH, convertRelative_raise. unfold raise_doc. simpl.
    f_equal. rewrite map_map. apply map_ext. intros track. rewrite map_map.
    apply map_ext. intros msg. rewrite raise_msg_compose by lia. f_equal. lia.
Qed.

Lemma convertRelative_iterated_witness :
  Nat.iter 2 convertRelative mixed_doc = raise_doc 6 mixed_doc.
Proof.
  apply (convertRelative_iterated mixed_doc 2).
  unfold pitches_at_most, mixed_doc. simpl.
  repeat (constructor;
          [repeat (constructor; [intros ? [= <-] || intros ? [=]; lia|]); constructor|]).
  constructor.
Defined.

Lemma convertRelative_below_clamp mid :
  pitches_at_most 124 mid → convertRelative mid = transpose_doc 3 mid.
Proof.
  intros Hmax. rewrite convertRelative_unfold. unfold transpose_doc. f_equal.
  unfold pitches_at_most in Hmax.
  induction Hmax as [|track trks Htrack _ IH]; simpl; [done|]. f_equal; [|done].
  induction Htrack as [|msg track Hmsg _ IHt]; simpl; [done|]. f_equal; [|done].
  destruct msg as [c n v t|c n v t|k d t]; simpl; [| |done];
    specialize (Hmsg n eq_refl); f_equal; lia.
Qed.

(** X5. On a file whose notes are at most 124 the clamp of
    [convertRelative] never acts: the conversion is the plain transposition
    of every note by 3 semitones. *)
Theorem convertRelative_transposes mid :
  pitches_at_most 124 mid → convertRelative mid = transpose_doc 3 mid.
Proof. apply convertRelative_below_clamp. Qed.

Lemma convertRelative_transposes_witness :
  convertRelative a_minor_doc = transpose_doc 3 a_minor_doc.
Proof.
  apply convertRelative_transposes.
  unfold pitches_at_most, a_minor_doc, one_note. simpl.
  repeat (constructor; [repeat (constructor; [intros ? [= <-]; lia|]); constructor|]).
  constructor.
Defined.

(** * Further properties of the key finder *)

(** ** Invariants of the accumulators *)

Lemma fold_tracks_invariant (P : Tally → Prop) mid :
  P tally0 → (∀ g track, P g → P (scan_track g track)) → P (accumulate mid).
Proof.
  intros H0 Hstep. unfold accumulate. revert H0. generalize tally0.
  induction (tracks mid) as [|track trks IH]; intros g Hg; [done|].
  simpl. apply IH. by apply Hstep.
Qed.

Lemma note_end_class_keys g act n now :
  class_keys g → class_keys (note_end g act n now).1.
Proof.
  intros Hg. unfold note_end. destruct (act !! n) as [onset|]; [|done].
  intros i. simpl. destruct (decide (n mod 12 = i)) as [<-|Hne].
  - intros _. pose proof (Z.mod_pos_bound n 12). lia.
  - rewrite lookup_insert_ne by done. apply Hg.
Qed.

Lemma scan_track_class_keys g track :
  class_keys g → class_keys (scan_track g track).
Proof.
  intros Hg. unfold scan_track.
  induction track as [|msg pre IH] using rev_ind; [done|].
  rewrite run_track_snoc. destruct (run_track g pre) as [g' c]. simpl in IH.
  destruct msg as [ch n v t|ch n v t|kind d t]; simpl; [| |done].
  - destruct (0 <? v); [done|]. destruct (v =? 0); [|done].
    by apply note_end_class_keys.
  - by apply note_end_class_keys.
Qed.

(** X6. After the walk over any file the keys of [cpitchc] are pitch
    classes 0 to 11, and the twelve accumulated durations add up to
    [totalDuration]. *)
Theorem accumulators_balanced mid :
  (∀ i, is_Some (cpitchc (accumulate mid) !! i) → 0 ≤ i < 12) ∧
  sum_classes (cpitchc (accumulate mid)) (seqZ 0 12) = totalDuration (accumulate mid).
Proof.
  split; [|apply accumulate_balanced].
  apply (fold_tracks_invariant class_keys).
  - intros i [x Hx]. simpl in Hx. by rewrite lookup_empty in Hx.
  - intros g track. apply scan_track_class_keys.
Qed.

(** ** Files whose delta times are not negative *)

Lemma note_end_forward g c n dt :
  0 ≤ dt → forward (g, c) →
  forward (note_end g (active c) n (currentTime c + dt)).
Proof.
  intros Hdt (Htot & Hval & Hact). simpl in *. unfold note_end.
  destruct (active c !! n) as [onset|] eqn:Hn.
  - specialize (Hact n onset Hn) as Hle. split; [simpl; lia|]. split; simpl.
    + intros i. unfold class_duration. simpl.
      destruct (decide (n mod 12 = i)) as [<-|Hne].
      * rewrite lookup_insert_eq. simpl. specialize (Hval (n mod 12)).
        unfold class_duration in Hval. lia.
      * rewrite lookup_insert_ne by done. apply Hval.
    + intros p o Hp. apply lookup_delete_Some in Hp as [_ Hp].
      specialize (Hact p o Hp). lia.
  - split; [done|]. split; [done|]. simpl. intros p o Hp.
    specialize (Hact p o Hp). lia.
Qed.

Lemma on_message_forward s msg :
  0 ≤ msg_time msg → forward s → forward (on_message s msg).
Proof.
  destruct s as [g c]. intros Hdt Hs.
  destruct msg as [ch n v t|ch n v t|kind d t]; simpl in *.
  - destruct (0 <? v).
    + destruct Hs as (Htot & Hval & Hact). split; [done|]. split; [done|].
      simpl in *. intros p o Hp. apply lookup_insert_Some in Hp as [[_ <-]|[_ Hp]].
      * lia.
      * specialize (Hact p o Hp). lia.
    + destruct (v =? 0); [by apply note_end_forward|].
      destruct Hs as (Htot & Hval & Hact). split; [done|]. split; [done|].
      simpl in *. intros p o Hp. specialize (Hact p o Hp). lia.
  - by apply note_end_forward.
  - destruct Hs as (Htot & Hval & Hact). split; [done|]. split; [done|].
    simpl in *. intros p o Hp. specialize (Hact p o Hp). lia.
Qed.

Lemma scan_track_forward g track :
  Forall (λ msg, 0 ≤ msg_time msg) track →
  0 ≤ totalDuration g ∧ (∀ i, 0 ≤ class_duration g i) →
  0 ≤ totalDuration (scan_track g track) ∧
  (∀ i, 0 ≤ class_duration (scan_track g track) i).
Proof.
  intros Htimes [Htot Hval].
  assert (Hfw : forward (run_track g track)).
  { induction track as [|msg pre IH] using rev_ind.
    - split; [done|]. split; [done|]. simpl. intros p o Hp.
      by rewrite lookup_empty in Hp.
    - apply Forall_app in Htimes as [Hpre Hmsg]. rewrite run_track_snoc.
      apply on_message_forward; [by inversion Hmsg|by apply IH]. }
  destruct Hfw as (? & ? & _). by split.
Qed.

Lemma accumulate_nonneg mid :
  nonneg_times mid →
  0 ≤ totalDuration (accumulate mid) ∧
  (∀ i, 0 ≤ class_duration (accumulate mid) i).
Proof.
  unfold nonneg_times, accumulate.
  assert (H0 : 0 ≤ totalDuration tally0 ∧ ∀ i, 0 ≤ class_duration tally0 i).
  { split; [done|]. intros i. unfold class_duration. simpl. by rewrite lookup_empty. }
  revert H0. generalize tally0.
  induction (tracks mid) as [|track trks IH]; intros g Hg Hall; [done|].
  inversion Hall; subst. simpl. apply IH; [|done]. by apply scan_track_forward.
Qed.

Lemma sum_classes_bound (m : gmap Z Z) (classes : list Z) i :
  (∀ j, 0 ≤ default 0 (m !! j)) → i ∈ classes →
  default 0 (m !! i) ≤ sum_classes m classes.
Proof.
  intros Hnn. assert (Hsum : ∀ l, 0 ≤ sum_classes m l).
  { induction l as [|j l IHl]; simpl; [done|]. specialize (Hnn j). lia. }
  induction classes as [|j classes IH]; [by inversion 1|].
  intros [->|Hin]%elem_of_cons; simpl.
  - specialize (Hsum classes). lia.
  - specialize (IH Hin). specialize (Hnn j). lia.
Qed.

(** X8. On a file without negative delta times no accumulated duration is
    negative, and none exceeds [totalDuration]; so, when [totalDuration] is
    not 0, every histogram entry lies between 0 and 1. *)
Theorem durations_nonnegative mid :
  nonneg_times mid →
  0 ≤ totalDuration (accumulate mid) ∧
  ∀ i, 0 ≤ i < 12 →
    0 ≤ class_duration (accumulate mid) i ≤ totalDuration (accumulate mid) ∧
    (totalDuration (accumulate mid) ≠ 0 →
     ∀ h, pitchClassHistogram (accumulate mid) !! Z.to_nat i = Some h →
          (0 <= h <= 1)%Q).
Proof.
  intros Htimes. destruct (accumulate_nonneg mid Htimes) as [Htot Hval].
  split; [done|]. intros i Hi.
  assert (Hle : class_duration (accumulate mid) i ≤ totalDuration (accumulate mid)).
  { rewrite <- accumulate_balanced. apply sum_classes_bound; [apply Hval|].
    apply elem_of_seqZ. lia. }
  split; [split; [apply Hval|done]|].
  intros Hnz h Hh. rewrite histogram_lookup in Hh by done. injection Hh as <-.
  fold (class_duration (accumulate mid) i).
  specialize (Hval i).
  assert (Hpos : (0 < inject_Z (totalDuration (accumulate mid)))%Q).
  { change 0%Q with (inject_Z 0). rewrite <- Zlt_Qlt. lia. }
  split.
  - apply Qle_shift_div_l; [done|]. rewrite Qmult_0_l.
    change 0%Q with (inject_Z 0). by rewrite <- Zle_Qle.
  - apply Qle_shift_div_r; [done|]. rewrite Qmult_1_l. by rewrite <- Zle_Qle.
Qed.

Lemma durations_nonnegative_witness :
  0 ≤ totalDuration (accumulate mixed_doc).
Proof.
  destruct (durations_nonnegative mixed_doc) as [Htot _]; [|exact Htot].
  unfold nonneg_times, mixed_doc. simpl.
  repeat (constructor; [repeat (constructor; [simpl; lia|]); constructor|]).
  constructor.
Defined.

(** ** What the walk reads *)

Lemma on_message_reading s msg msg' :
  reading msg = reading msg' → msg_time msg = msg_time msg' →
  on_message s msg = on_message s msg'.
Proof.
  destruct s as [g c].
  destruct msg as [ch n v t|ch n v t|k d t], msg' as [ch' n' v' t'|ch' n' v' t'|k' d' t'];
    simpl; intros Hr Ht; subst;
    repeat (match goal with
            | H : context [if ?b then _ else _] |- _ => destruct b eqn:?
            | |- context [if ?b then _ else _] => destruct b eqn:?
            end);
    try discriminate; try done; by injection Hr as ->.
Qed.

Lemma run_track_reading g track track' :
  map (λ msg, (reading msg, msg_time msg)) track
  = map (λ msg, (reading msg, msg_time msg)) track' →
  run_track g track = run_track g track'.
Proof.
  unfold run_track. generalize (g, cursor0).
  revert track'. induction track as [|msg track IH]; intros [|msg' track'] s Heq;
    try done.
  simpl in Heq. injection Heq as Hr Ht Heq. simpl.
  rewrite (on_message_reading s msg msg') by done. by apply IH.
Qed.

Lemma accumulate_reading mid mid' :
  map (map (λ msg, (reading msg, msg_time msg))) (tracks mid)
  = map (map (λ msg, (reading msg, msg_time msg))) (tracks mid') →
  accumulate mid = accumulate mid'.
Proof.
  unfold accumulate. generalize tally0. generalize (tracks mid') as trks'.
  induction (tracks mid) as [|track trks IH]; intros [|track' trks'] g Heq; try done.
  simpl in Heq. injection Heq as Htrack Heq. simpl.
  unfold scan_track at 2 4. rewrite (run_track_reading g track track') by done.
  by apply IH.
Qed.

(** X9. The key finder reads a message only through its delta time and
    through whether it is an onset (note-on of positive velocity), an offset
    (note-off, or note-on of velocity 0) or neither, and of which pitch.  Two
    files that agree on these, track by track and event by event, get the
    same accumulators and the same key: channels, velocities beyond their
    sign, note-off velocities, the content of other messages, the file type
    and the ticks per beat never matter. *)
Theorem analyseKey_reads_onsets_and_offsets mid mid' :
  map (map (λ msg, (reading msg, msg_time msg))) (tracks mid)
  = map (map (λ msg, (reading msg, msg_time msg))) (tracks mid') →
  accumulate mid = accumulate mid' ∧ analyseKey mid = analyseKey mid'.
Proof.
  intros Heq. apply accumulate_reading in Heq. split; [done|].
  unfold analyseKey. by rewrite Heq.
Qed.

Lemma analyseKey_reads_onsets_and_offsets_witness :
  analyseKey (mkMidiFile 1 480 [[NoteOn 0 69 80 0; NoteOff 0 69 64 480]])
  = analyseKey (mkMidiFile 0 96 [[NoteOn 9 69 1 0; NoteOn 3 69 0 480]]).
Proof.
  apply analyseKey_reads_onsets_and_offsets. reflexivity.
Defined.

(** ** Events that only pass time *)

Lemma on_message_delay s kind data dt msg :
  on_message (on_message s (Other kind data dt)) msg = on_message s (delay dt msg).
Proof.
  destruct s as [g c]. destruct msg as [ch n v t|ch n v t|k d t]; simpl;
    by rewrite !Z.add_assoc.
Qed.

(** X10. An event that is neither note-on nor note-off matters only by
    its delta time: removing it and adding its delta time to the event after
    it leaves the walk of the track unchanged, and removing it from the end
    of a track leaves the accumulators unchanged. *)
Theorem other_events_only_pass_time g pre kind data dt :
  (∀ msg post,
     run_track g (pre ++ Other kind data dt :: msg :: post)
     = run_track g (pre ++ delay dt msg :: post)) ∧
  scan_track g (pre ++ [Other kind data dt]) = scan_track g pre.
Proof.
  split.
  - intros msg post. rewrite !run_track_app. simpl. by rewrite on_message_delay.
  - unfold scan_track. rewrite run_track_snoc.
    by destruct (run_track g pre) as [g' c].
Qed.

(** ** Tracks in any order *)

Lemma note_end_offset_by g g1 g0 act n now :
  totalDuration g1 = totalDuration g + totalDuration g0 →
  (∀ i, class_duration g1 i = class_duration g i + class_duration g0 i) →
  offset_by g (note_end g1 act n now) (note_end g0 act n now).
Proof.
  intros Htot Hval. unfold note_end. destruct (act !! n) as [onset|].
  - split; [done|]. split; [simpl; lia|]. simpl. intros i.
    unfold class_duration in *. simpl.
    destruct (decide (n mod 12 = i)) as [<-|Hne].
    + rewrite !lookup_insert_eq. simpl. specialize (Hval (n mod 12)). lia.
    + rewrite !lookup_insert_ne by done. apply Hval.
  - by split.
Qed.

Lemma on_message_offset_by g s s0 msg :
  offset_by g s s0 → offset_by g (on_message s msg) (on_message s0 msg).
Proof.
  destruct s as [g1 c], s0 as [g0 c0]. intros (Hc & Htot & Hval).
  simpl in Hc, Htot, Hval. subst c0.
  destruct msg as [ch n v t|ch n v t|k d t]; simpl.
  - destruct (0 <? v); [by split|]. destruct (v =? 0); [|by split].
    by apply note_end_offset_by.
  - by apply note_end_offset_by.
  - by split.
Qed.

Lemma run_track_offset_by g track :
  offset_by g (run_track g track) (run_track tally0 track).
Proof.
  induction track as [|msg pre IH] using rev_ind.
  - split; [done|]. split; [simpl; lia|]. intros i. unfold class_duration.
    simpl. rewrite lookup_empty. simpl. lia.
  - rewrite !run_track_snoc. by apply on_message_offset_by.
Qed.

Lemma scan_track_same_durations g g' track :
  same_durations g g' →
  same_durations (scan_track g track) (scan_track g' track).
Proof.
  intros [Htot Hval]. unfold scan_track.
  destruct (run_track_offset_by g track) as (_ & Ht & Hv).
  destruct (run_track_offset_by g' track) as (_ & Ht' & Hv').
  split; [lia|]. intros i. rewrite Hv, Hv', Hval. done.
Qed.

Lemma scan_track_swap g a b :
  same_durations (scan_track (scan_track g a) b) (scan_track (scan_track g b) a).
Proof.
  unfold scan_track.
  destruct (run_track_offset_by (run_track g a).1 b) as (_ & Hab & Hvab).
  destruct (run_track_offset_by (run_track g b).1 a) as (_ & Hba & Hvba).
  destruct (run_track_offset_by g a) as (_ & Ha & Hva).
  destruct (run_track_offset_by g b) as (_ & Hb & Hvb).
  split; [lia|]. intros i. rewrite Hvab, Hvba, Hva, Hvb. lia.
Qed.

Lemma fold_tracks_same_durations trks g g' :
  same_durations g g' →
  same_durations (fold_left scan_track trks g) (fold_left scan_track trks g').
Proof.
  revert g g'. induction trks as [|track trks IH]; intros g g' Hg; [done|].
  simpl. apply IH. by apply scan_track_same_durations.
Qed.

Lemma fold_tracks_permutation trks trks' g :
  trks ≡ₚ trks' →
  same_durations (fold_left scan_track trks g) (fold_left scan_track trks' g).
Proof.
  intros Hperm. revert g.
  induction Hperm as [|track trks trks' _ IH|a b trks|trks1 trks2 trks3 _ IH1 _ IH2];
    intros g; simpl.
  - by split.
  - apply IH.
  - apply fold_tracks_same_durations, scan_track_swap.
  - destruct (IH1 g) as [Ht1 Hv1], (IH2 g) as [Ht2 Hv2].
    split; [lia|]. intros i. by rewrite Hv1, Hv2.
Qed.

Lemma same_durations_histogram g g' :
  same_durations g g' → pitchClassHistogram g = pitchClassHistogram g'.
Proof.
  intros [Htot Hval]. unfold pitchClassHistogram. rewrite Htot.
  apply map_ext. intros i. specialize (Hval i). unfold class_duration in Hval.
  by rewrite Hval.
Qed.

Lemma same_durations_key mid mid' :
  same_durations (accumulate mid) (accumulate mid') →
  analyseKey mid = analyseKey mid'.
Proof.
  intros Hsame. unfold analyseKey.
  rewrite (same_durations_histogram _ _ Hsame). destruct Hsame as [-> _]. done.
Qed.

(** X11. The order of the tracks does not matter: two files whose track
    lists are permutations of each other have the same total duration, the
    same duration in every pitch class and the same key. *)
Theorem analyseKey_track_order mid mid' :
  tracks mid ≡ₚ tracks mid' →
  same_durations (accumulate mid) (accumulate mid') ∧
  analyseKey mid = analyseKey mid'.
Proof.
  intros Hperm.
  assert (Hsame : same_durations (accumulate mid) (accumulate mid'))
    by (by apply fold_tracks_permutation).
  split; [done|]. by apply same_durations_key.
Qed.

Lemma analyseKey_track_order_witness :
  analyseKey (mkMidiFile 1 480 [one_note 57 1920; one_note 72 480; one_note 69 960])
  = analyseKey (mkMidiFile 1 480 [one_note 69 960; one_note 57 1920; one_note 72 480]).
Proof.
  apply analyseKey_track_order. simpl.
  etrans; [apply perm_skip, perm_swap|apply perm_swap].
Defined.

(** ** Scoring up to equality of rationals *)

Lemma dot_Qeq (a a' b : list Q) :
  Forall2 Qeq a a' → (dot a b == dot a' b)%Q.
Proof.
  intros Haa. revert b. unfold dot.
  induction Haa as [|x x' a a' Hx _ IH]; intros [|y b]; simpl; try reflexivity.
  by rewrite Hx, (IH b).
Qed.

Lemma score_Qeq hist hist' key :
  Forall2 Qeq hist hist' → (score hist key == score hist' key)%Q.
Proof. intros H. unfold score. by apply dot_Qeq. Qed.

Lemma Qgtb_Qeq x x' y y' :
  (x == x')%Q → (y == y')%Q → Qgtb x y = Qgtb x' y'.
Proof. intros Hx Hy. unfold Qgtb. by rewrite Hx, Hy. Qed.

Lemma fold_pick_Qeq hist hist' keys st st' :
  Forall2 Qeq hist hist' → (st.1 == st'.1)%Q → st.2 = st'.2 →
  (fold_left (pick hist) keys st).2 = (fold_left (pick hist') keys st').2.
Proof.
  intros Hh. revert st st'. induction keys as [|key keys IH]; intros st st' H1 H2;
    [done|].
  simpl. apply IH; unfold pick;
    rewrite (Qgtb_Qeq _ (score hist' key) _ st'.1) by (by apply score_Qeq || done);
    destruct (Qgtb (score hist' key) st'.1); simpl; try done.
  by apply score_Qeq.
Qed.

Lemma search_Qeq hist hist' :
  Forall2 Qeq hist hist' → (search hist).2 = (search hist').2.
Proof.
  intros Hh. rewrite !search_candidates. by apply fold_pick_Qeq.
Qed.

Lemma Forall2_map_pointwise {A B} (R : B → B → Prop) (f g : A → B) (l : list A) :
  (∀ x, R (f x) (g x)) → Forall2 R (map f l) (map g l).
Proof. intros H. induction l; simpl; constructor; auto. Qed.

(** ** Tempo *)

Lemma note_end_scaled k g g' act n now :
  totalDuration g' = k * totalDuration g →
  (∀ i, class_duration g' i = k * class_duration g i) →
  scaled k (note_end g act n now) (note_end g' (Z.mul k <$> act) n (k * now)).
Proof.
  intros Htot Hval. unfold note_end. rewrite lookup_fmap.
  destruct (act !! n) as [onset|]; simpl.
  - split; [simpl; lia|]. split; [|split; [done|]]; simpl.
    + intros i. unfold class_duration in *. simpl.
      destruct (decide (n mod 12 = i)) as [<-|Hne].
      * rewrite !lookup_insert_eq. simpl. specialize (Hval (n mod 12)). lia.
      * rewrite !lookup_insert_ne by done. apply Hval.
    + by rewrite fmap_delete.
  - by split.
Qed.

Lemma on_message_scaled k s s' msg :
  scaled k s s' → scaled k (on_message s msg) (on_message s' (scale_msg k msg)).
Proof.
  destruct s as [g c], s' as [g' c']. intros (Htot & Hval & Hclk & Hact).
  simpl in Htot, Hval, Hclk, Hact.
  destruct msg as [ch n v t|ch n v t|kind d t]; simpl; rewrite Hclk, Hact;
    rewrite <- Z.mul_add_distr_l.
  - destruct (0 <? v).
    + split; [done|]. split; [done|]. split; [done|]. simpl. by rewrite fmap_insert.
    + destruct (v =? 0); [by apply note_end_scaled|]. by split.
  - by apply note_end_scaled.
  - by split.
Qed.

Lemma scan_track_scaled k g g' track :
  totalDuration g' = k * totalDuration g →
  (∀ i, class_duration g' i = k * class_duration g i) →
  totalDuration (scan_track g' (map (scale_msg k) track))
  = k * totalDuration (scan_track g track) ∧
  (∀ i, class_duration (scan_track g' (map (scale_msg k) track)) i
        = k * class_duration (scan_track g track) i).
Proof.
  intros Htot Hval.
  assert (Hs : scaled k (run_track g track) (run_track g' (map (scale_msg k) track))).
  { induction track as [|msg pre IH] using rev_ind.
    - split; [done|]. split; [done|]. split; [simpl; lia|]. simpl.
      by rewrite fmap_empty.
    - rewrite map_app. simpl. rewrite !run_track_snoc. by apply on_message_scaled. }
  destruct Hs as (? & ? & _). by split.
Qed.

Lemma accumulate_scaled k mid :
  totalDuration (accumulate (scale_doc k mid)) = k * totalDuration (accumulate mid) ∧
  (∀ i, class_duration (accumulate (scale_doc k mid)) i
        = k * class_duration (accumulate mid) i).
Proof.
  unfold accumulate, scale_doc. simpl.
  assert (H0 : totalDuration tally0 = k * totalDuration tally0 ∧
               ∀ i, class_duration tally0 i = k * class_duration tally0 i).
  { split; [simpl; lia|]. intros i. unfold class_duration. simpl.
    rewrite lookup_empty. simpl. lia. }
  revert H0. generalize tally0 at 1 3 5 7. generalize tally0.
  induction (tracks mid) as [|track trks IH]; intros g g' Hg; [done|].
  simpl. apply IH. destruct Hg. by apply scan_track_scaled.
Qed.

(** X12. Multiplying every delta time of a file by the same non-zero
    integer multiplies [totalDuration] and every pitch-class duration by it
    and leaves the detected key unchanged: the key does not depend on the
    unit in which time is counted. *)
Theorem analyseKey_tempo k mid :
  k ≠ 0 →
  totalDuration (accumulate (scale_doc k mid)) = k * totalDuration (accumulate mid) ∧
  (∀ i, class_duration (accumulate (scale_doc k mid)) i
        = k * class_duration (accumulate mid) i) ∧
  analyseKey (scale_doc k mid) = analyseKey mid.
Proof.
  intros Hk. destruct (accumulate_scaled k mid) as [Htot Hval].
  split; [done|]. split; [done|]. unfold analyseKey.
  destruct (Z.eqb_spec (totalDuration (accumulate mid)) 0) as [Hz|Hnz].
  - rewrite Htot, Hz, Z.mul_0_r. done.
  - destruct (Z.eqb_spec (totalDuration (accumulate (scale_doc k mid))) 0) as [Hz'|_];
      [rewrite Htot in Hz'; lia|].
    apply search_Qeq. unfold pitchClassHistogram. rewrite Htot.
    apply Forall2_map_pointwise. intros i.
    specialize (Hval i). unfold class_duration in Hval. rewrite Hval.
    rewrite !inject_Z_mult. field. split.
    + intros H. apply Hnz. by apply (inject_Z_injective _ 0).
    + intros H. apply Hk. by apply (inject_Z_injective _ 0).
Qed.

Lemma analyseKey_tempo_witness :
  analyseKey (scale_doc 4 a_minor_doc) = analyseKey a_minor_doc.
Proof.
  destruct (analyseKey_tempo 4 a_minor_doc) as (_ & _ & Hkey); [lia|exact Hkey].
Defined.

(** ** Transposition rotates the accumulators *)

Lemma class_shift_inj i j k :
  0 ≤ i < 12 → 0 ≤ j < 12 → (i + k) mod 12 = (j + k) mod 12 → i = j.
Proof.
  intros Hi Hj. rewrite (Z.mod_eq (i + k) 12), (Z.mod_eq (j + k) 12) by lia. lia.
Qed.

Lemma note_end_moved k g g' act act' n now :
  rotated k g g' → (∀ p, act' !! (p + k) = act !! p) →
  moved k (note_end g act n now) (note_end g' act' (n + k) now).
Proof.
  intros [Htot Hval] Hact. unfold note_end. rewrite Hact.
  destruct (act !! n) as [onset|]; [|by split].
  split; [split|split; [done|]]; simpl.
  - lia.
  - intros i Hi. unfold class_duration in *. simpl.
    assert (Hcls : (n + k) mod 12 = (n mod 12 + k) mod 12)
      by (by rewrite Zplus_mod_idemp_l).
    pose proof (Z.mod_pos_bound n 12) as Hn.
    destruct (decide (n mod 12 = i)) as [<-|Hne].
    + rewrite Hcls, !lookup_insert_eq. simpl.
      rewrite <- Hcls. specialize (Hval (n mod 12)). rewrite <- Hcls in Hval. lia.
    + rewrite !lookup_insert_ne; [by apply Hval|done|].
      rewrite Hcls. intros Heq. apply Hne. apply (class_shift_inj _ _ k); lia.
  - intros p. destruct (decide (n = p)) as [->|Hne].
    + by rewrite !lookup_delete_eq.
    + rewrite !lookup_delete_ne by lia. apply Hact.
Qed.

Lemma on_message_moved k s s' msg :
  moved k s s' → moved k (on_message s msg) (on_message s' (transpose_msg k msg)).
Proof.
  destruct s as [g c], s' as [g' c']. intros (Hg & Hclk & Hact).
  simpl in Hg, Hclk, Hact.
  destruct msg as [ch n v t|ch n v t|kind d t]; simpl; rewrite Hclk.
  - destruct (0 <? v).
    + split; [done|]. split; [done|]. simpl. intros p.
      destruct (decide (n = p)) as [->|Hne].
      * by rewrite !lookup_insert_eq.
      * rewrite !lookup_insert_ne by lia. apply Hact.
    + destruct (v =? 0); [by apply note_end_moved|]. by split.
  - by apply note_end_moved.
  - by split.
Qed.

Lemma scan_track_rotated k g g' track :
  rotated k g g' →
  rotated k (scan_track g track) (scan_track g' (map (transpose_msg k) track)).
Proof.
  intros Hg.
  assert (Hm : moved k (run_track g track)
                       (run_track g' (map (transpose_msg k) track))).
  { induction track as [|msg pre IH] using rev_ind.
    - split; [done|]. split; [done|]. intros p. simpl. by rewrite !lookup_empty.
    - rewrite map_app. simpl. rewrite !run_track_snoc. by apply on_message_moved. }
  by destruct Hm as [? _].
Qed.

Lemma accumulate_rotated k mid :
  rotated k (accumulate mid) (accumulate (transpose_doc k mid)).
Proof.
  unfold accumulate, transpose_doc. simpl.
  assert (H0 : rotated k tally0 tally0).
  { split; [done|]. intros i _. unfold class_duration. simpl.
    by rewrite !lookup_empty. }
  revert H0. generalize tally0 at 1 3. generalize tally0.
  induction (tracks mid) as [|track trks IH]; intros g g' Hg; [done|].
  simpl. apply IH. by apply scan_track_rotated.
Qed.

(** X13. Moving every note of a file by [k] semitones, for any integer
    [k], keeps [totalDuration] and moves the accumulated duration of each
    pitch class [i] to pitch class [(i + k) mod 12]. *)
Theorem transposition_rotates_durations k mid :
  totalDuration (accumulate (transpose_doc k mid)) = totalDuration (accumulate mid) ∧
  ∀ i, 0 ≤ i < 12 →
    class_duration (accumulate (transpose_doc k mid)) ((i + k) mod 12)
    = class_duration (accumulate mid) i.
Proof. apply accumulate_rotated. Qed.

(** ** Rolling vectors *)

Lemma length_roll {A} (a : list A) (shift : Z) : length (roll a shift) = length a.
Proof. unfold roll. rewrite length_app, length_drop, length_take. lia. Qed.

Lemma roll_lookup_back {A} (a : list A) (shift : Z) (j : nat) :
  (j < length a)%nat →
  roll a shift !! j
  = a !! Z.to_nat ((Z.of_nat j - shift) mod Z.of_nat (length a)).
Proof.
  intros Hj. set (n := Z.of_nat (length a)).
  assert (Hi : 0 ≤ (Z.of_nat j - shift) mod n < n) by (apply Z.mod_pos_bound; lia).
  rewrite <- (roll_lookup a shift _ Hi). fold n. f_equal.
  rewrite Zplus_mod_idemp_l.
  replace (Z.of_nat j - shift + shift) with (Z.of_nat j) by lia.
  rewrite Z.mod_small by lia. lia.
Qed.

Lemma roll_roll {A} (a : list A) (s k : Z) : roll (roll a s) k = roll a (s + k).
Proof.
  apply list_eq. intros j. destruct (decide (j < length a)%nat) as [Hlt|Hge].
  - rewrite roll_lookup_back by (by rewrite length_roll).
    rewrite length_roll. set (n := Z.of_nat (length a)).
    assert (Hi : 0 ≤ (Z.of_nat j - k) mod n < n) by (apply Z.mod_pos_bound; lia).
    rewrite roll_lookup_back by lia. rewrite (roll_lookup_back a (s + k)) by done.
    fold n. f_equal. f_equal. rewrite Z2Nat.id by lia.
    rewrite Zminus_mod_idemp_l. f_equal. lia.
  - rewrite !lookup_ge_None_2; [done| |]; rewrite !length_roll; lia.
Qed.

Lemma roll_mod {A} (a : list A) (s : Z) :
  roll a (s mod Z.of_nat (length a)) = roll a s.
Proof. unfold roll. by rewrite Zmod_mod. Qed.

Lemma dot_app (x1 x2 y1 y2 : list Q) :
  length x1 = length y1 →
  (dot (x1 ++ x2) (y1 ++ y2) == dot x1 y1 + dot x2 y2)%Q.
Proof.
  revert y1. unfold dot. induction x1 as [|x x1 IH]; intros [|y y1] Hlen;
    simpl in *; try done.
  - ring.
  - rewrite (IH y1) by lia. ring.
Qed.

Lemma dot_roll (a b : list Q) (k : Z) :
  length a = length b → (dot (roll a k) (roll b k) == dot a b)%Q.
Proof.
  intros Hlen. unfold roll. rewrite <- Hlen.
  set (j := (length a - Z.to_nat (k mod Z.of_nat (length a)))%nat).
  rewrite dot_app by (rewrite !length_drop; lia).
  rewrite <- (take_drop j a) at 3. rewrite <- (take_drop j b) at 3.
  rewrite dot_app by (rewrite !length_take; lia). ring.
Qed.

Lemma length_profile_of mode : length (profile_of mode) = 12%nat.
Proof. unfold profile_of. by destruct (String.eqb mode "major"). Qed.

Lemma score_roll hist k t mode :
  length hist = 12%nat →
  (score (roll hist k) ((t + k) mod 12, mode) == score hist (t, mode))%Q.
Proof.
  intros Hlen. unfold score. simpl.
  pose proof (length_profile_of mode) as Hp.
  replace 12 with (Z.of_nat (length (profile_of mode))) by (rewrite Hp; done).
  rewrite roll_mod, <- roll_roll. apply dot_roll.
  by rewrite length_roll, Hp.
Qed.

(** ** Keys that score strictly best *)

Lemma candidates_elem t mode :
  0 ≤ t < 12 → mode = "major" ∨ mode = "minor" → (t, mode) ∈ candidates.
Proof.
  intros Ht Hm. destruct (candidates_order t Ht) as [Hmaj Hmin].
  destruct Hm as [-> | ->]; eapply list_elem_of_lookup_2; eassumption.
Qed.

Lemma search_strict_best hist key :
  strict_best hist key → (-1 < score hist key)%Q → (search hist).2 = key.
Proof.
  intros [Hin Hbest] Habove. rewrite search_candidates.
  destruct (fold_pick_first_max hist candidates ((-1)%Q, (0, "minor")))
    as [[_ Hall]|(l1 & best & l2 & Hsplit & -> & _ & Hbefore & Hafter)].
  - exfalso. rewrite Forall_forall in Hall. specialize (Hall key Hin).
    simpl in Hall. by apply (Qlt_not_le _ _ Habove).
  - simpl. destruct (decide (best = key)) as [|Hne]; [done|]. exfalso.
    assert (Hbin : best ∈ candidates).
    { rewrite Hsplit. apply elem_of_app. right. left. }
    specialize (Hbest best Hbin Hne).
    rewrite Hsplit in Hin. rewrite Forall_forall in Hbefore, Hafter.
    apply elem_of_app in Hin as [Hin|Hin].
    + specialize (Hbefore key Hin). by apply (Qlt_irrefl (score hist key)), Qlt_trans with (score hist best).
    + apply elem_of_cons in Hin as [->|Hin]; [done|].
      specialize (Hafter key Hin). by apply (Qlt_not_le _ _ Hbest).
Qed.

Lemma strict_best_Qeq hist hist' key :
  Forall2 Qeq hist hist' → strict_best hist key → strict_best hist' key.
Proof.
  intros Hh [Hin Hbest]. split; [done|]. intros key' Hin' Hne.
  rewrite <- (score_Qeq hist hist' key'), <- (score_Qeq hist hist' key) by done.
  by apply Hbest.
Qed.

Lemma strict_best_roll hist k t mode :
  length hist = 12%nat → strict_best hist (t, mode) →
  strict_best (roll hist k) ((t + k) mod 12, mode).
Proof.
  intros Hlen [Hin Hbest]. apply candidates_range in Hin as Hrange.
  simpl in Hrange. destruct Hrange as [Ht Hmode].
  split.
  - apply candidates_elem; [|done]. apply Z.mod_pos_bound. lia.
  - intros [t' mode'] Hin' Hne. apply candidates_range in Hin' as Hrange'.
    simpl in Hrange'. destruct Hrange' as [Ht' Hmode'].
    assert (Hback : ((t' - k) mod 12 + k) mod 12 = t').
    { rewrite Zplus_mod_idemp_l. replace (t' - k + k) with t' by lia.
      apply Z.mod_small. lia. }
    rewrite <- Hback at 1. rewrite !score_roll by done.
    apply Hbest.
    + apply candidates_elem; [|done]. apply Z.mod_pos_bound. lia.
    + intros [= Ht0 Hm0]. apply Hne. by rewrite <- Ht0, Hback, Hm0.
Qed.

Lemma length_histogram g : length (pitchClassHistogram g) = 12%nat.
Proof. unfold pitchClassHistogram. by rewrite length_map, length_seqZ. Qed.

Lemma rotated_histogram k g g' :
  rotated k g g' → pitchClassHistogram g' = roll (pitchClassHistogram g) k.
Proof.
  intros [Htot Hval]. apply list_eq. intros j.
  destruct (decide (j < 12)%nat) as [Hlt|Hge].
  - rewrite roll_lookup_back by (rewrite length_histogram; lia).
    rewrite length_histogram.
    assert (Hi : 0 ≤ (Z.of_nat j - k) mod 12 < 12) by (apply Z.mod_pos_bound; lia).
    change (Z.of_nat 12) with 12.
    rewrite (histogram_lookup g _ Hi).
    replace j with (Z.to_nat (Z.of_nat j)) at 1 by lia.
    rewrite histogram_lookup by lia. rewrite Htot. do 3 f_equal.
    specialize (Hval _ Hi). unfold class_duration in Hval. rewrite <- Hval.
    do 2 f_equal. rewrite Zplus_mod_idemp_l.
    replace (Z.of_nat j - k + k) with (Z.of_nat j) by lia.
    symmetry. apply Z.mod_small. lia.
  - rewrite !lookup_ge_None_2; [done| |];
      rewrite ?length_roll, length_histogram; lia.
Qed.

Lemma strict_best_above_initial mid key :
  totalDuration (accumulate mid) ≠ 0 →
  strict_best (pitchClassHistogram (accumulate mid)) key →
  (-1 < score (pitchClassHistogram (accumulate mid)) key)%Q.
Proof.
  intros Hne [Hin Hbest].
  destruct (histogram_score_above_initial mid Hne) as (key0 & Hin0 & Habove).
  destruct (decide (key0 = key)) as [<-|Hdiff]; [done|].
  apply Qlt_trans with (score (pitchClassHistogram (accumulate mid)) key0); [done|].
  by apply Hbest.
Qed.

Lemma strict_best_key mid key :
  totalDuration (accumulate mid) ≠ 0 →
  strict_best (pitchClassHistogram (accumulate mid)) key →
  analyseKey mid = key.
Proof.
  intros Hne Hbest. unfold analyseKey.
  destruct (Z.eqb_spec (totalDuration (accumulate mid)) 0) as [|_]; [done|].
  apply search_strict_best; [done|]. by apply strict_best_above_initial.
Qed.

Lemma strict_best_closed hist key :
  key ∈ candidates →
  Forall (λ key', key' = key ∨ (score hist key' < score hist key)%Q) candidates →
  strict_best hist key.
Proof.
  intros Hin Hall. split; [done|]. intros key' Hin' Hne.
  rewrite Forall_forall in Hall. by destruct (Hall key' Hin') as [?|?].
Qed.

(** ** Files that sound a single pitch class *)

Lemma unit_strict_best : strict_best unit_histogram (0, "major").
Proof.
  apply strict_best_closed.
  - by apply candidates_elem; [lia|left].
  - unfold candidates. simpl.
    repeat (constructor; [first [by left | right; by vm_compute]|]).
    constructor.
Qed.

Lemma unit_histogram_lookup i :
  0 ≤ i < 12 →
  unit_histogram !! Z.to_nat i = Some (if decide (i = 0) then 1%Q else 0%Q).
Proof.
  intros Hi. unfold unit_histogram. destruct (decide (i = 0)) as [->|Hne]; [done|].
  destruct (Z.to_nat i) as [|j] eqn:Hj; [lia|].
  change (replicate 11 0%Q !! j = Some 0%Q).
  apply lookup_replicate_2. lia.
Qed.

Lemma note_end_single_class c g act n now :
  n mod 12 = c → (∀ i, i ≠ c → class_duration g i = 0) →
  ∀ i, i ≠ c → class_duration (note_end g act n now).1 i = 0.
Proof.
  intros Hn Hg i Hi. unfold note_end. destruct (act !! n) as [onset|]; [|by apply Hg].
  unfold class_duration. simpl. rewrite lookup_insert_ne by lia. by apply Hg.
Qed.

Lemma scan_track_single_class c g track :
  Forall (λ msg, ∀ n, msg_note msg = Some n → n mod 12 = c) track →
  (∀ i, i ≠ c → class_duration g i = 0) →
  ∀ i, i ≠ c → class_duration (scan_track g track) i = 0.
Proof.
  intros Htrack Hg. unfold scan_track.
  induction track as [|msg pre IH] using rev_ind; [done|].
  apply Forall_app in Htrack as [Hpre Hmsg]. apply Forall_inv in Hmsg.
  specialize (IH Hpre). rewrite run_track_snoc.
  destruct (run_track g pre) as [g' cur]. simpl in IH.
  destruct msg as [ch n v t|ch n v t|kind d t]; simpl; [| |done].
  - destruct (0 <? v); [done|]. destruct (v =? 0); [|done].
    apply note_end_single_class; [by apply Hmsg|done].
  - apply note_end_single_class; [by apply Hmsg|done].
Qed.

Lemma accumulate_single_class c mid :
  single_class c mid → ∀ i, i ≠ c → class_duration (accumulate mid) i = 0.
Proof.
  unfold single_class, accumulate.
  assert (H0 : ∀ i, i ≠ c → class_duration tally0 i = 0).
  { intros i _. unfold class_duration. simpl. by rewrite lookup_empty. }
  revert H0. generalize tally0.
  induction (tracks mid) as [|track trks IH]; intros g Hg Hall; [done|].
  inversion Hall; subst. simpl. apply IH; [|done]. by apply scan_track_single_class.
Qed.

Lemma sum_classes_single (m : gmap Z Z) (classes : list Z) c :
  NoDup classes → (∀ i, i ≠ c → default 0 (m !! i) = 0) →
  sum_classes m classes = if bool_decide (c ∈ classes) then default 0 (m !! c) else 0.
Proof.
  intros Hnd Hz. induction Hnd as [|i classes Hi Hnd IH]; simpl; [done|].
  rewrite IH. destruct (decide (i = c)) as [->|Hne].
  - rewrite (bool_decide_eq_false_2 _ Hi).
    rewrite bool_decide_eq_true_2 by left. lia.
  - rewrite (Hz i Hne). destruct (decide (c ∈ classes)) as [Hin|Hout].
    + rewrite !bool_decide_eq_true_2; [lia|by right|done].
    + rewrite !bool_decide_eq_false_2; [lia| |done].
      intros [?|?]%elem_of_cons; [by subst|done].
Qed.

Lemma single_class_histogram c mid :
  0 ≤ c < 12 → single_class c mid → totalDuration (accumulate mid) ≠ 0 →
  Forall2 Qeq (roll unit_histogram c) (pitchClassHistogram (accumulate mid)).
Proof.
  intros Hc Hsingle Hne.
  pose proof (accumulate_single_class c mid Hsingle) as Hzero.
  assert (Hfull : class_duration (accumulate mid) c = totalDuration (accumulate mid)).
  { rewrite <- accumulate_balanced.
    rewrite (sum_classes_single _ _ c) by (apply NoDup_seqZ || apply Hzero).
    rewrite bool_decide_eq_true_2; [done|]. apply elem_of_seqZ. lia. }
  apply Forall2_same_length_lookup_2.
  { by rewrite length_roll, length_histogram. }
  intros j x y Hx Hy.
  assert (Hj : (j < 12)%nat).
  { apply lookup_lt_Some in Hy. by rewrite length_histogram in Hy. }
  rewrite roll_lookup_back in Hx by (simpl; lia).
  change (Z.of_nat (length unit_histogram)) with 12 in Hx.
  rewrite unit_histogram_lookup in Hx by (apply Z.mod_pos_bound; lia).
  injection Hx as <-.
  replace j with (Z.to_nat (Z.of_nat j)) in Hy by lia.
  rewrite histogram_lookup in Hy by lia. injection Hy as <-.
  fold (class_duration (accumulate mid) (Z.of_nat j)).
  destruct (decide (Z.of_nat j = c)) as [Hjc|Hjc].
  - rewrite Hjc, Z.sub_diag. simpl. rewrite Hfull. symmetry.
    apply Qmult_inv_r. intros H. apply Hne. by apply (inject_Z_injective _ 0).
  - destruct (decide ((Z.of_nat j - c) mod 12 = 0)) as [Hmod|_].
    + exfalso. apply Hjc. rewrite (Z.mod_eq _ 12) in Hmod by lia. lia.
    + rewrite (Hzero _ Hjc). unfold Qdiv. simpl. ring.
Qed.

(** X16. A file of non-zero total duration all of whose notes lie in one
    pitch class [c] is detected as [c] major: the histogram is 1 at [c] and 0
    elsewhere, and the largest profile value, 6.35, is the major tonic's. *)
Theorem single_class_is_major c mid :
  0 ≤ c < 12 → single_class c mid → totalDuration (accumulate mid) ≠ 0 →
  analyseKey mid = (c, "major").
Proof.
  intros Hc Hsingle Hne. apply strict_best_key; [done|].
  apply (strict_best_Qeq (roll unit_histogram c)).
  - by apply single_class_histogram.
  - replace c with ((0 + c) mod 12) at 2 by (apply Z.mod_small; lia).
    apply strict_best_roll; [done|apply unit_strict_best].
Qed.

Lemma single_class_is_major_witness :
  analyseKey (mkMidiFile 1 480 [one_note 69 480 ++ one_note 57 240; one_note 81 100])
  = (9, "major").
Proof.
  apply single_class_is_major.
  - lia.
  - unfold single_class, one_note. simpl.
    repeat (constructor; [repeat (constructor; [by intros ? [= <-]|]); constructor|]).
    constructor.
  - vm_compute. discriminate.
Defined.

(** * Properties of [main] *)

Lemma py_index_notes i : 0 ≤ i < 12 → is_Some (py_index notes i).
Proof.
  intros Hi. unfold py_index. destruct (Z.leb_spec 0 i) as [_|?]; [|lia].
  apply lookup_lt_is_Some. simpl. lia.
Qed.

Lemma ask_None answers :
  ask answers = None ↔ Forall (λ a, a ≠ "1" ∧ a ≠ "2") answers.
Proof.
  induction answers as [|a answers IH]; simpl; [by split|].
  case_bool_decide as Hin.
  - split; [done|]. intros [[H1 H2] _]%Forall_cons. exfalso.
    rewrite !elem_of_cons in Hin. destruct Hin as [?|[?|Hnil]]; [done|done|].
    by inversion Hnil.
  - rewrite IH, Forall_cons. split; [|by intros [_ ?]]. intros Hall. split; [|done].
    rewrite !elem_of_cons in Hin. split; intros ->; apply Hin; auto.
Qed.

Lemma ask_Some answers choice :
  ask answers = Some choice → choice = "1" ∨ choice = "2".
Proof.
  induction answers as [|a answers IH]; simpl; [done|].
  case_bool_decide as Hin; [|done]. intros [= <-].
  rewrite !elem_of_cons in Hin. destruct Hin as [?|[?|Hnil]]; [by left|by right|].
  by inversion Hnil.
Qed.

(** X17. Once the file is loaded, the only exception that can leave [main]
    is the end of the console input: the two look-ups in [notes] are always in
    range, so [main] fails exactly when the detected mode is minor and no
    answer is ["1"] or ["2"]. *)
Theorem main_fails_only_at_end_of_input mid answers :
  main true (Some mid) answers = None ↔
  (analyseKey mid).2 = "minor" ∧ Forall (λ a, a ≠ "1" ∧ a ≠ "2") answers.
Proof.
  unfold main, main_loaded. simpl.
  destruct (analyseKey_range mid) as [Ht Hm].
  destruct (analyseKey mid) as [t mode]. simpl in *.
  destruct (py_index_notes t) as [name ->]; [lia|]. simpl.
  destruct (py_index_notes ((t + 3) mod 12)) as [rel ->];
    [apply Z.mod_pos_bound; lia|]. simpl.
  destruct Hm as [-> | ->]; simpl.
  - split; [done|]. by intros [? _].
  - rewrite <- ask_None. destruct (ask answers) as [choice|] eqn:Hask; simpl.
    + split; [|by intros [_ ?]].
      apply ask_Some in Hask as [-> | ->]; simpl; done.
    + done.
Qed.

Lemma same_frame_relative mid : same_frame mid (convertRelative mid).
Proof.
  unfold same_frame. split; [done|]. split; [done|]. rewrite convertRelative_tracks.
  split; [by rewrite length_map|]. split; [|split].
  - rewrite map_map. apply map_ext. intros. by rewrite length_map.
  - rewrite map_map. apply map_ext. intros track. rewrite map_map.
    apply map_ext. apply msg_time_relative.
  - apply Forall2_map_same. intros track. apply Forall2_map_same.
    apply same_except_pitch_relative.
Qed.

Lemma same_frame_parallel mid tonicpc : same_frame mid (convertParallel mid tonicpc).
Proof.
  unfold same_frame. split; [done|]. split; [done|]. rewrite convertParallel_tracks.
  split; [by rewrite length_map|]. split; [|split].
  - rewrite map_map. apply map_ext. intros. by rewrite length_map.
  - rewrite map_map. apply map_ext. intros track. rewrite map_map.
    apply map_ext. apply msg_time_parallel.
  - apply Forall2_map_same. intros track. apply Forall2_map_same.
    apply same_except_pitch_parallel.
Qed.

(** X18. Whatever [main] hands to [save] comes from a file detected as
    minor, is the relative or the parallel conversion of the loaded file with
    the detected tonic, has the file type, ticks per beat, track and event
    counts and delta times of the loaded file, and has its note pitches
    between 0 and 127 when the loaded file has.  The relative conversion is
    saved exactly when the first valid answer is ["1"]. *)
Theorem main_saves_a_conversion valid_path mid answers out tonicName newKeyName :
  main valid_path (Some mid) answers = Some (Saving out tonicName newKeyName) →
  valid_path = true ∧
  (analyseKey mid).2 = "minor" ∧
  (ask answers = Some "1" ∧ out = convertRelative mid ∨
   ask answers = Some "2" ∧ out = convertParallel mid (analyseKey mid).1) ∧
  same_frame mid out ∧
  (pitches_in_range mid → pitches_in_range out).
Proof.
  unfold main, main_loaded. destruct valid_path; simpl; [|done]. intros Hrun.
  split; [done|].
  destruct (analyseKey mid) as [t mode]. simpl in *.
  destruct (py_index notes t) as [name|]; simpl in Hrun; [|done].
  destruct (String.eqb_spec mode "minor") as [->|Hmode]; simpl in Hrun; [|done].
  split; [done|].
  destruct (py_index notes ((t + 3) mod 12)) as [rel|]; simpl in Hrun; [|done].
  destruct (ask answers) as [choice|] eqn:Hask; simpl in Hrun; [|done].
  apply ask_Some in Hask as Hchoice. destruct Hchoice as [-> | ->]; simpl in Hrun;
    injection Hrun as <- _ _.
  - split; [by left|]. split; [apply same_frame_relative|].
    apply pitches_in_range_relative.
  - split; [by right|]. split; [apply same_frame_parallel|].
    apply pitches_in_range_parallel.
Qed.

Lemma main_saves_a_conversion_witness :
  same_frame a_minor_doc (convertParallel a_minor_doc 9).
Proof.
  destruct (main_saves_a_conversion true a_minor_doc ["3"; ""; "2"; "1"]
              (convertParallel a_minor_doc 9) "A" "A Major")
    as (_ & _ & _ & Hframe & _).
  - vm_compute. reflexivity.
  - exact Hframe.
Defined.

(** * More on the walk *)

(** ** Notes struck again before their release *)

Lemma restrike_agree n s s' ch v t :
  0 < v → agree_but n s s' →
  on_message s (NoteOn ch n v t) = on_message s' (NoteOn ch n v t).
Proof.
  destruct s as [g c], s' as [g' c']. intros Hv (Hg & Hclk & Hact).
  simpl in Hg, Hclk, Hact. subst g'. simpl. apply Z.ltb_lt in Hv. rewrite Hv, Hclk.
  do 2 f_equal. apply map_eq. intros k. destruct (decide (n = k)) as [->|Hne].
  - by rewrite !lookup_insert_eq.
  - rewrite !lookup_insert_ne by done. by apply Hact.
Qed.

(** X21. A note struck again before its release counts from the last
    strike.  When a note-on of positive velocity is followed, with no release
    of its pitch in between, by another note-on of positive velocity of the
    same pitch, the earlier one acts as a non-note event of the same delta
    time: the whole loop state after the later one is the same. *)
Theorem restrike_overwrites g pre ch n v t between ch' v' t' :
  0 < v → 0 < v' → Forall (λ msg, ¬ ends_pitch n msg) between →
  run_track g (pre ++ NoteOn ch n v t :: between ++ [NoteOn ch' n v' t'])
  = run_track g (pre ++ Other "" [] t :: between ++ [NoteOn ch' n v' t']).
Proof.
  intros Hv Hv' Hbetween. rewrite !run_track_app. simpl.
  rewrite !fold_left_app. simpl. apply restrike_agree; [done|].
  apply fold_agree_but; [|done].
  destruct (run_track g pre) as [g' c]. simpl.
  apply Z.ltb_lt in Hv. rewrite Hv.
  split; [done|]. split; [done|]. simpl. intros k Hk.
  by rewrite lookup_insert_ne.
Qed.

Lemma restrike_overwrites_witness :
  run_track tally0 [NoteOn 0 60 80 0; NoteOn 0 64 80 100; NoteOn 0 60 90 100]
  = run_track tally0 [Other "" [] 0; NoteOn 0 64 80 100; NoteOn 0 60 90 100].
Proof.
  apply (restrike_overwrites tally0 [] 0 60 80 0 [NoteOn 0 64 80 100] 0 90 100).
  - lia.
  - lia.
  - constructor; [|constructor]. intros [_ Hnote]. discriminate Hnote.
Defined.

(** ** Melodies *)

Lemma run_track_melody g cur ns :
  active cur = ∅ →
  let s := fold_left on_message (melody ns) (g, cur) in
  active s.2 = ∅ ∧
  totalDuration s.1 = totalDuration g + melody_length ns ∧
  ∀ c, 0 ≤ c < 12 → class_duration s.1 c = class_duration g c + melody_duration c ns.
Proof.
  revert g cur. induction ns as [|[[gap pitch] len] ns IH]; intros g cur Hcur.
  - simpl. split; [done|]. split; [lia|]. intros c _. lia.
  - change (melody ((gap, pitch, len) :: ns))
      with ([NoteOn 0 pitch 64 gap; NoteOff 0 pitch 64 len] ++ melody ns).
    rewrite fold_left_app. destruct cur as [act clk]. simpl in Hcur. subst act.
    cbn [fold_left on_message msg_time Z.ltb Z.compare active currentTime].
    unfold note_end. rewrite lookup_insert_eq.
    cbn [active currentTime cpitchc totalDuration].
    match goal with
    | |- context [fold_left on_message (melody ns) (?g1, ?c1)] =>
        specialize (IH g1 c1)
    end.
    destruct IH as (Hact & Htot & Hval).
    { simpl. rewrite delete_insert_eq. apply delete_empty. }
    split; [done|]. split.
    + rewrite Htot. simpl. lia.
    + intros c Hc. rewrite (Hval c Hc). unfold class_duration. simpl.
      destruct (decide (pitch mod 12 = c)) as [<-|Hne].
      * rewrite lookup_insert_eq. simpl. lia.
      * rewrite lookup_insert_ne by done. lia.
Qed.

(** X22. A track of separate notes is measured note by note: after a
    track in which each note is released before the next is struck, whatever
    the gaps between them, [totalDuration] has grown by the sum of the note
    lengths and each pitch-class duration by the lengths of the notes in that
    class. *)
Theorem melody_durations g ns :
  totalDuration (scan_track g (melody ns)) = totalDuration g + melody_length ns ∧
  ∀ c, 0 ≤ c < 12 →
    class_duration (scan_track g (melody ns)) c
    = class_duration g c + melody_duration c ns.
Proof.
  unfold scan_track, run_track.
  destruct (run_track_melody g cursor0 ns eq_refl) as (_ & Htot & Hval).
  by split.
Qed.

(** * The key finder in any arithmetic *)

Lemma analyseKey_exact mid : analyseKey_in exact mid = analyseKey mid.
Proof. reflexivity. Qed.

Example tritone_binary64 : analyseKey_in binary64 tritone_doc = (0, "minor").
Proof. vm_compute. reflexivity. Qed.

Example tritone_exact : analyseKey_in exact tritone_doc = (0, "major").
Proof. vm_compute. reflexivity. Qed.

Lemma consider_pick_in A hist i st :
  fold_left (consider_in A hist i) (profiles_in A) st
  = fold_left (pick_in A hist) [(i, "major"); (i, "minor")] st.
Proof. reflexivity. Qed.

Lemma tonic_loop_candidates_in A hist (tonics : list Z) st :
  fold_left (λ st i, fold_left (consider_in A hist i) (profiles_in A) st) tonics st
  = fold_left (pick_in A hist) (i ← tonics; [(i, "major"); (i, "minor")]) st.
Proof.
  revert st. induction tonics as [|i tonics IH]; intros st; [done|].
  transitivity (fold_left (pick_in A hist) (i ← tonics; [(i, "major"); (i, "minor")])
                  (fold_left (pick_in A hist) [(i, "major"); (i, "minor")] st)).
  - rewrite <- consider_pick_in. apply IH.
  - symmetry. apply (fold_left_app (pick_in A hist) [(i, "major"); (i, "minor")]).
Qed.

Lemma search_in_candidates A hist :
  search_in A hist
  = fold_left (pick_in A hist) candidates (literal A (-1)%Q, (0, "minor")).
Proof. apply tonic_loop_candidates_in. Qed.

Lemma fold_pick_in_key A hist l st :
  (fold_left (pick_in A hist) l st).2 = st.2 ∨ (fold_left (pick_in A hist) l st).2 ∈ l.
Proof.
  revert st. induction l as [|key l IH]; intros st; simpl; [by left|].
  destruct (IH (pick_in A hist st key)) as [Heq|Hin].
  - rewrite Heq. unfold pick_in. destruct (greater A _ _); simpl; [right; left|by left].
  - right. by right.
Qed.

Lemma ordered_on_tail {X} (gt : X → X → bool) b x S :
  ordered_on gt (b :: x :: S) → ordered_on gt (b :: S) ∧ ordered_on gt (x :: S).
Proof.
  intros Hord. split; intros u v w Hu Hv Hw; apply Hord;
    rewrite !elem_of_cons in *; tauto.
Qed.

(** With [>] ordering the values it meets, the loops return the first key
    whose score is above the initial best and that no key of the list
    exceeds, or the initial state when no score is above the initial best. *)
Lemma fold_pick_in_first_max A hist l st :
  ordered_on (greater A) (st.1 :: map (score_in A hist) l) →
  (fold_left (pick_in A hist) l st = st ∧
   Forall (λ key, greater A (score_in A hist key) st.1 = false) l) ∨
  (∃ l1 key l2,
     l = l1 ++ key :: l2 ∧
     fold_left (pick_in A hist) l st = (score_in A hist key, key) ∧
     greater A (score_in A hist key) st.1 = true ∧
     Forall (λ key', greater A (score_in A hist key) (score_in A hist key') = true) l1 ∧
     Forall (λ key', greater A (score_in A hist key') (score_in A hist key) = false) l2).
Proof.
  revert st. induction l as [|x l IH]; intros st Hord; simpl; [by left|].
  simpl in Hord. destruct (ordered_on_tail _ _ _ _ Hord) as [Hst Hx].
  destruct (greater A (score_in A hist x) st.1) eqn:Hgt.
  - assert (Hpick : pick_in A hist st x = (score_in A hist x, x))
      by (unfold pick_in; by rewrite Hgt).
    rewrite Hpick. right.
    destruct (IH (score_in A hist x, x) Hx)
      as [[Hsame Hall]|(l1 & key & l2 & -> & Hres & Habove & H1 & H2)].
    + exists [], x, l. simpl in *. repeat split; try done.
    + exists (x :: l1), key, l2. simpl in *. repeat split; try done.
      * destruct (Hord (score_in A hist key) (score_in A hist x) st.1)
          as (_ & Htrans & _); [| | |by apply Htrans].
        -- right. right. rewrite map_app. apply elem_of_app. right. left.
        -- right. left.
        -- left.
      * by constructor.
  - assert (Hpick : pick_in A hist st x = st) by (unfold pick_in; by rewrite Hgt).
    rewrite Hpick.
    destruct (IH st Hst) as [[Hsame Hall]|(l1 & key & l2 & -> & Hres & Habove & H1 & H2)].
    + left. split; [done|]. by constructor.
    + right. exists (x :: l1), key, l2. simpl. repeat split; try done.
      constructor; [|done].
      destruct (Hord (score_in A hist key) st.1 (score_in A hist x))
        as (_ & _ & Hweak); [| | |by apply Hweak].
      * right. right. rewrite map_app. apply elem_of_app. right. left.
      * left.
      * right. left.
Qed.

Lemma ordered_check_sound {X} (gt : X → X → bool) (S : list X) :
  ordered_check gt S = true → ordered_on gt S.
Proof.
  unfold ordered_check. rewrite forallb_forall. intros Hall x y z Hx Hy Hz.
  apply list_elem_of_In in Hx, Hy, Hz.
  specialize (Hall x Hx). apply andb_true_iff in Hall as [Hirr Hall].
  rewrite forallb_forall in Hall. specialize (Hall y Hy).
  rewrite forallb_forall in Hall. specialize (Hall z Hz).
  apply andb_true_iff in Hall as [Htrans Hweak].
  split; [by apply negb_true_iff|]. split.
  - intros Hxy Hyz. by rewrite Hxy, Hyz in Htrans.
  - intros Hxy Hzy. by rewrite Hxy, Hzy in Hweak.
Qed.

Lemma histogram_in_lookup A g i :
  0 ≤ i < 12 →
  histogram_in A g !! Z.to_nat i
  = Some (true_div A (default 0 (cpitchc g !! i)) (totalDuration g)).
Proof.
  intros Hi. unfold histogram_in. rewrite list_lookup_fmap.
  rewrite lookup_seqZ_lt by lia. simpl.
  by replace (0 + Z.of_nat (Z.to_nat i)) with i by lia.
Qed.

(** C1. In any arithmetic in which [>] orders the scores of the file and
    the initial best score [-1], and in which some score is above [-1]: when
    [totalDuration] is not 0 the histogram holds, for each pitch class, the
    quotient of its accumulated duration by [totalDuration]; the score of
    tonic [t] and a mode is [np.dot] of the histogram with that mode's
    profile rolled by [t], where rolling moves the value at position [i] to
    position [(i + t) mod 12]; the keys are tried tonic by tonic from 0 to
    11, major before minor; and [analyseKey] returns the first key in that
    order that no key scores above: no score is greater than its score, and
    its score is greater than that of every earlier key. *)
Theorem analyseKey_first_maximum_in (A : Arithmetic) mid :
  totalDuration (accumulate mid) ≠ 0 →
  let hist := histogram_in A (accumulate mid) in
  ordered_on (greater A) (literal A (-1)%Q :: map (score_in A hist) candidates) →
  (∃ key, key ∈ candidates ∧ greater A (score_in A hist key) (literal A (-1)%Q) = true) →
  (∀ i, 0 ≤ i < 12 →
     hist !! Z.to_nat i
     = Some (true_div A (default 0 (cpitchc (accumulate mid) !! i))
                        (totalDuration (accumulate mid)))) ∧
  (∀ t mode profile, (mode, profile) ∈ profiles_in A →
     score_in A hist (t, mode) = np_dot A hist (roll profile t) ∧
     ∀ i, 0 ≤ i < 12 →
       roll profile t !! Z.to_nat ((i + t) mod 12) = profile !! Z.to_nat i) ∧
  (∀ t, 0 ≤ t < 12 →
     candidates !! (2 * Z.to_nat t)%nat = Some (t, "major") ∧
     candidates !! (2 * Z.to_nat t + 1)%nat = Some (t, "minor")) ∧
  ∃ idx,
    candidates !! idx = Some (analyseKey_in A mid) ∧
    ∀ j key, candidates !! j = Some key →
      greater A (score_in A hist key) (score_in A hist (analyseKey_in A mid)) = false ∧
      ((j < idx)%nat →
       greater A (score_in A hist (analyseKey_in A mid)) (score_in A hist key) = true).
Proof.
  intros Hne hist Hord Habove.
  split; [intros i Hi; by apply histogram_in_lookup|].
  split.
  { intros t mode profile Hin.
    assert (Hmp : (mode, profile) = ("major", majorProfile_in A) ∨
                  (mode, profile) = ("minor", minorProfile_in A)).
    { unfold profiles_in in Hin. rewrite !elem_of_cons in Hin.
      destruct Hin as [?|[?|Hnil]]; [by left|by right|by inversion Hnil]. }
    destruct Hmp as [[= -> ->]|[= -> ->]]; (split; [reflexivity|]); intros i Hi.
    - exact (roll_lookup (majorProfile_in A) t i Hi).
    - exact (roll_lookup (minorProfile_in A) t i Hi). }
  split; [apply candidates_order|].
  unfold analyseKey_in.
  destruct (Z.eqb_spec (totalDuration (accumulate mid)) 0) as [|_]; [done|].
  rewrite search_in_candidates. fold hist.
  destruct (fold_pick_in_first_max A hist candidates (literal A (-1)%Q, (0, "minor")) Hord)
    as [[_ Hall]|(l1 & best & l2 & Hsplit & -> & _ & Hbefore & Hafter)].
  - exfalso. destruct Habove as (key & Hkey & Hgt).
    rewrite Forall_forall in Hall. specialize (Hall key Hkey). simpl in Hall.
    congruence.
  - exists (length l1). rewrite Hsplit. simpl. split.
    + by rewrite list_lookup_middle.
    + intros j key Hj. rewrite Forall_forall in Hbefore, Hafter.
      assert (Hirr : greater A (score_in A hist best) (score_in A hist best) = false).
      { destruct (Hord (score_in A hist best) (score_in A hist best)
                       (score_in A hist best)) as [Hirr _]; try done;
          right; rewrite Hsplit, map_app; apply elem_of_app; right; left. }
      assert (Hall1 : ∀ k, k ∈ l1 →
                greater A (score_in A hist k) (score_in A hist best) = false).
      { intros k Hk. specialize (Hbefore k Hk).
        destruct (greater A (score_in A hist k) (score_in A hist best)) eqn:Hkb;
          [|done].
        destruct (Hord (score_in A hist best) (score_in A hist k)
                       (score_in A hist best)) as (_ & Htrans & _).
        - right. rewrite Hsplit, map_app. apply elem_of_app. right. left.
        - right. rewrite Hsplit, map_app. apply elem_of_app. left.
          by apply list_elem_of_fmap_2.
        - right. rewrite Hsplit, map_app. apply elem_of_app. right. left.
        - rewrite Htrans in Hirr; done. }
      destruct (decide (j < length l1)%nat) as [Hlt|Hge].
      * rewrite lookup_app_l in Hj by done.
        apply list_elem_of_lookup_2 in Hj.
        split; [by apply Hall1|intros _; by apply Hbefore].
      * rewrite lookup_app_r in Hj by lia.
        split; [|lia].
        destruct (j - length l1)%nat as [|j'] eqn:Hj'; simpl in Hj.
        -- by injection Hj as <-.
        -- apply list_elem_of_lookup_2 in Hj. by apply Hafter.
Qed.

Lemma analyseKey_first_maximum_in_witness :
  ∃ idx,
    candidates !! idx = Some (analyseKey_in binary64 tritone_doc) ∧
    ∀ j key, candidates !! j = Some key →
      greater binary64
        (score_in binary64 (histogram_in binary64 (accumulate tritone_doc)) key)
        (score_in binary64 (histogram_in binary64 (accumulate tritone_doc))
                  (analyseKey_in binary64 tritone_doc)) = false ∧
      ((j < idx)%nat →
       greater binary64
         (score_in binary64 (histogram_in binary64 (accumulate tritone_doc))
                   (analyseKey_in binary64 tritone_doc))
         (score_in binary64 (histogram_in binary64 (accumulate tritone_doc)) key)
       = true).
Proof.
  destruct (analyseKey_first_maximum_in binary64 tritone_doc)
    as (_ & _ & _ & Hfirst).
  - vm_compute. discriminate.
  - apply ordered_check_sound. vm_compute. reflexivity.
  - exists (0, "major"). split.
    + apply (list_elem_of_lookup_2 _ 0%nat). reflexivity.
    + vm_compute. reflexivity.
  - exact Hfirst.
Defined.

Lemma same_durations_histogram_in A g g' :
  same_durations g g' → histogram_in A g = histogram_in A g'.
Proof.
  intros [Htot Hval]. unfold histogram_in. rewrite Htot.
  apply map_ext. intros i. specialize (Hval i). unfold class_duration in Hval.
  by rewrite Hval.
Qed.

Lemma same_durations_key_in A mid mid' :
  same_durations (accumulate mid) (accumulate mid') →
  analyseKey_in A mid = analyseKey_in A mid'.
Proof.
  intros Hsame. unfold analyseKey_in.
  rewrite (same_durations_histogram_in A _ _ Hsame). destruct Hsame as [-> _]. done.
Qed.

(** X23. In every arithmetic the returned key is a function of
    [totalDuration] and of the durations of the twelve pitch classes: two
    files with the same ones get the same key, whatever the rounding of the
    scores. *)
Theorem analyseKey_in_reads_durations (A : Arithmetic) mid mid' :
  same_durations (accumulate mid) (accumulate mid') →
  analyseKey_in A mid = analyseKey_in A mid'.
Proof. apply same_durations_key_in. Qed.

Lemma analyseKey_in_reads_durations_witness :
  analyseKey_in binary64 (mkMidiFile 0 96 [[NoteOn 5 60 1 0; NoteOn 5 60 0 480;
                                            NoteOn 7 66 9 0; NoteOff 7 66 9 480]])
  = analyseKey_in binary64 tritone_doc.
Proof.
  apply analyseKey_in_reads_durations. split; [reflexivity|].
  intros i. reflexivity.
Defined.

(** X24. In every arithmetic, IEEE doubles included, the returned key is
    unchanged by permuting the tracks, by changing anything in the messages
    but their delta times and their reading as onset, offset or neither of a
    pitch, and by moving every note up an octave. *)
Theorem analyseKey_in_invariances (A : Arithmetic) :
  (∀ mid mid', tracks mid ≡ₚ tracks mid' →
     analyseKey_in A mid = analyseKey_in A mid') ∧
  (∀ mid mid',
     map (map (λ msg, (reading msg, msg_time msg))) (tracks mid)
     = map (map (λ msg, (reading msg, msg_time msg))) (tracks mid') →
     analyseKey_in A mid = analyseKey_in A mid') ∧
  (∀ mid, analyseKey_in A (transpose_doc 12 mid) = analyseKey_in A mid).
Proof.
  split; [|split].
  - intros mid mid' Hperm. apply same_durations_key_in.
    by apply fold_tracks_permutation.
  - intros mid mid' Heq. unfold analyseKey_in. by rewrite (accumulate_reading mid mid').
  - intros mid. unfold analyseKey_in. by rewrite accumulate_transpose12.
Qed.

Lemma analyseKey_in_invariances_witness :
  analyseKey_in binary64
    (mkMidiFile 1 480 [one_note 57 1920; one_note 72 480; one_note 69 960])
  = analyseKey_in binary64
    (mkMidiFile 1 480 [one_note 69 960; one_note 57 1920; one_note 72 480]).
Proof.
  destruct (analyseKey_in_invariances binary64) as [Hperm _].
  apply Hperm. simpl.
  etrans; [apply perm_skip, perm_swap|apply perm_swap].
Defined.

(** X25. In every arithmetic [analyseKey] returns (0, minor) when
    [totalDuration] is 0, without evaluating a quotient, and otherwise a
    tonic between 0 and 11 with the mode ["major"] or ["minor"], whatever the
    comparisons of the scores answer. *)
Theorem analyseKey_in_range (A : Arithmetic) mid :
  (totalDuration (accumulate mid) = 0 → analyseKey_in A mid = (0, "minor")) ∧
  0 ≤ (analyseKey_in A mid).1 ≤ 11 ∧
  ((analyseKey_in A mid).2 = "major" ∨ (analyseKey_in A mid).2 = "minor").
Proof.
  unfold analyseKey_in. split.
  - intros ->. done.
  - destruct (totalDuration (accumulate mid) =? 0).
    + simpl. split; [lia|by right].
    + rewrite search_in_candidates.
      destruct (fold_pick_in_key A (histogram_in A (accumulate mid)) candidates
                  (literal A (-1)%Q, (0, "minor"))) as [-> | Hin].
      * simpl. split; [lia|by right].
      * by apply candidates_range.
Qed.

(** ** The two conditions on the arithmetic, in exact rationals *)

(** In exact rationals [>] orders any values whatever. *)
Lemma exact_ordered (S : list Q) : ordered_on (greater exact) S.
Proof.
  intros x y z _ _ _. simpl. split; [|split].
  - apply Qgtb_false, Qle_refl.
  - rewrite !Qgtb_true. intros Hxy Hyz. by apply Qlt_trans with y.
  - rewrite !Qgtb_true, Qgtb_false. intros Hxy Hzy. by apply Qle_lt_trans with y.
Qed.

(** In exact rationals some score is above [-1] on every file of non-zero
    total duration: the twelve major scores add up to 41.79. *)
Lemma exact_above_initial mid :
  totalDuration (accumulate mid) ≠ 0 →
  ∃ key, key ∈ candidates ∧
    greater exact (score_in exact (histogram_in exact (accumulate mid)) key)
                  (literal exact (-1)%Q) = true.
Proof.
  intros Hne. destruct (histogram_score_above_initial mid Hne) as (key & Hin & Hgt).
  exists key. split; [done|]. by apply Qgtb_true.
Qed.
